(** * TimeToAugment: the contrastive losses of [utils/losses.py]

    A shallow embedding of the three loss modules of [utils/losses.py]
    ([SimCLR_TT_Loss], [BYOL_TT_Loss], [VICReg_TT_Loss]) and of the tensor
    operations they call, followed by the properties of the specification.

    Conventions of the embedding.
    - A 2-D tensor is a record holding its shape and its rows; a 1-D tensor
      is a list.  Shapes are kept explicitly because an empty tensor still
      has a column count in torch.
    - A Python exception is a value of [exn]; a call that may raise returns
      a [result].
    - Tensor entries are real numbers: the arithmetic of the losses is the
      exact one, rounding of floating point numbers is not modelled.  The
      range of the floats is modelled in [F.normalize], where the sum of
      the squares of a row can leave it: above the largest float32 the
      norm is [inf] and the normalized row is a row of zeros.  The purely
      structural operations (indexing, reshaping, masking) are
      polymorphic in the entry type.
    - The module [config] is not part of the sources; its constants are the
      fields of the record [Config.t]. *)

From Stdlib Require Import List Arith PeanoNat Bool Lia ZArith Permutation.
From Stdlib Require Import Reals Lra Psatz.
Import ListNotations.

Set Implicit Arguments.

(* ================================================================== *)
(** * Exceptions *)

Inductive exn : Type :=
| RuntimeError    (* torch: sizes of tensors do not match, invalid shape *)
| IndexError      (* index out of range, mask of the wrong shape *)
| ValueError      (* an argument of the wrong size *)
| AssertionError. (* a failed [assert] *)

Definition result (A : Type) : Type := (exn + A)%type.

Definition ret {A} (a : A) : result A := inr a.
Definition raise {A} (e : exn) : result A := inl e.

Definition bind {A B} (c : result A) (k : A -> result B) : result B :=
  match c with
  | inl e => inl e
  | inr a => k a
  end.

Declare Scope result_scope.
Delimit Scope result_scope with result.
Notation "x <- c ;; k" := (bind c (fun x => k))
  (at level 61, c at next level, right associativity) : result_scope.
Open Scope result_scope.

Definition is_ok {A} (c : result A) : bool :=
  match c with inr _ => true | inl _ => false end.

(** [for i in range(n): s = body(i, s)], stopping at the first exception. *)
Fixpoint for_range_from {S} (start n : nat) (body : nat -> S -> result S)
  (s : S) : result S :=
  match n with
  | 0 => ret s
  | Datatypes.S n' => s' <- body start s ;; for_range_from (Datatypes.S start) n' body s'
  end.

Definition for_range {S} (n : nat) (body : nat -> S -> result S) (s : S)
  : result S := for_range_from 0 n body s.

(* ================================================================== *)
(** * Tensors *)

Module Tensor.

Section Poly.
Context {A : Type}.

(** A 2-D tensor of shape [(nrows, ncols)]. *)
Record t : Type := mk {
  nrows : nat;
  ncols : nat;
  rows : list (list A)
}.

Definition shape (m : t) : nat * nat := (nrows m, ncols m).

(** The rows agree with the shape. *)
Definition wf (m : t) : Prop :=
  length (rows m) = nrows m /\
  Forall (fun r => length r = ncols m) (rows m).

Definition wfb (m : t) : bool :=
  (length (rows m) =? nrows m) &&
  forallb (fun r => length r =? ncols m) (rows m).

(** [m[i, j]], [None] outside the tensor. *)
Definition get (m : t) (i j : nat) : option A :=
  match nth_error (rows m) i with
  | Some r => nth_error r j
  | None => None
  end.

(** [torch.full((r, c), v)]; [torch.ones] and [torch.zeros] are instances. *)
Definition full (r c : nat) (v : A) : t :=
  mk r c (repeat (repeat v c) r).

(** Replace position [i] of a list by [f] of its content. *)
Fixpoint update (i : nat) (f : A -> A) (l : list A) : list A :=
  match l, i with
  | [], _ => []
  | a :: l', 0 => f a :: l'
  | a :: l', S i' => a :: update i' f l'
  end.

End Poly.

Arguments t : clear implicits.

Section Poly2.
Context {A : Type}.

Fixpoint update_row (i : nat) (f : list A -> list A) (l : list (list A))
  : list (list A) :=
  match l, i with
  | [], _ => []
  | a :: l', 0 => f a :: l'
  | a :: l', S i' => a :: update_row i' f l'
  end.

(** The store of [m[i, j] = v], for indices inside the tensor. *)
Definition set_entry (m : t A) (i j : nat) (v : A) : t A :=
  mk (nrows m) (ncols m) (update_row i (update j (fun _ => v)) (rows m)).

(** [m[i, j] = v]: Python raises [IndexError] outside the tensor. *)
Definition setitem (m : t A) (i j : nat) (v : A) : result (t A) :=
  if (i <? nrows m) && (j <? ncols m) then ret (set_entry m i j v)
  else raise IndexError.

(** [m.fill_diagonal_(v)] *)
Definition fill_diagonal_ (m : t A) (v : A) : t A :=
  fold_left (fun m' i => set_entry m' i i v)
            (seq 0 (Nat.min (nrows m) (ncols m))) m.

(** [m.flatten()]: the entries in row-major order. *)
Definition flatten (m : t A) : list A := concat (rows m).

(** [r] consecutive blocks of [c] entries. *)
Fixpoint chunks (r c : nat) (l : list A) : list (list A) :=
  match r with
  | 0 => []
  | S r' => firstn c l :: chunks r' c (skipn c l)
  end.

(** [l.view(r, c)] and [l.reshape(r, c)] on a 1-D tensor. *)
Definition reshape (l : list A) (r c : nat) : result (t A) :=
  if length l =? r * c then ret (mk r c (chunks r c l))
  else raise RuntimeError.

(** [l.reshape(r, -1)]: the second size is inferred; torch refuses
    [r = 0] (the inferred size would be ambiguous) and a length that [r]
    does not divide. *)
Definition reshape_infer (l : list A) (r : nat) : result (t A) :=
  if r =? 0 then raise RuntimeError
  else if length l mod r =? 0
       then ret (mk r (length l / r) (chunks r (length l / r) l))
       else raise RuntimeError.

(** [l.reshape(-1, c)]: the first size is inferred. *)
Definition reshape_infer0 (l : list A) (c : nat) : result (t A) :=
  if c =? 0 then raise RuntimeError
  else if length l mod c =? 0
       then ret (mk (length l / c) c (chunks (length l / c) c l))
       else raise RuntimeError.

(** [l.view(d0, d1)] and [l.reshape(d0, d1)] with the sizes as Python
    passes them: integers, of which one may be [-1]. *)
Definition view (l : list A) (d0 d1 : Z) : result (t A) :=
  if ((d0 =? -1) && (d1 =? -1))%Z then raise RuntimeError
  else if (d0 =? -1)%Z then
    (if (d1 <? 0)%Z then raise RuntimeError
     else reshape_infer0 l (Z.to_nat d1))
  else if (d1 =? -1)%Z then
    (if (d0 <? 0)%Z then raise RuntimeError
     else reshape_infer l (Z.to_nat d0))
  else if ((d0 <? 0) || (d1 <? 0))%Z then raise RuntimeError
  else reshape l (Z.to_nat d0) (Z.to_nat d1).

(** The diagonal starting at row 0, column [k]. *)
Fixpoint diag_from (k : nat) (rs : list (list A)) : list A :=
  match rs with
  | [] => []
  | r :: rs' =>
      match nth_error r k with
      | Some v => v :: diag_from (S k) rs'
      | None => []
      end
  end.

(** [torch.diag(m, k)] of a 2-D tensor: the [k]-th diagonal, above the
    main one for [k > 0] and below it for [k < 0]; empty when [k] is
    outside the tensor. *)
Definition diag (m : t A) (k : Z) : list A :=
  if (0 <=? k)%Z then diag_from (Z.to_nat k) (rows m)
  else diag_from 0 (skipn (Z.to_nat (- k)) (rows m)).

(** The entries of [r] at the positions where [b] is true. *)
Fixpoint select (r : list A) (b : list bool) : list A :=
  match r, b with
  | a :: r', true :: b' => a :: select r' b'
  | _ :: r', false :: b' => select r' b'
  | _, _ => []
  end.

Fixpoint select_rows (rs : list (list A)) (bs : list (list bool)) : list A :=
  match rs, bs with
  | r :: rs', b :: bs' => select r b ++ select_rows rs' bs'
  | _, _ => []
  end.

(** [m[mask]] for a boolean mask: the selected entries in row-major
    order; [IndexError] when the mask has another shape. *)
Definition masked_select (m : t A) (mask : t bool) : result (list A) :=
  if (nrows mask =? nrows m) && (ncols mask =? ncols m)
  then ret (select_rows (rows m) (rows mask))
  else raise IndexError.

(** [torch.cat((a, b), dim=0)] *)
Definition cat0 (a b : t A) : result (t A) :=
  if ncols a =? ncols b
  then ret (mk (nrows a + nrows b) (ncols a) (rows a ++ rows b))
  else raise RuntimeError.

Fixpoint zip_with {B C} (f : A -> B -> C) (l : list A) (l' : list B) : list C :=
  match l, l' with
  | a :: l1, b :: l1' => f a b :: zip_with f l1 l1'
  | _, _ => []
  end.

End Poly2.

Section Poly3.
Context {A : Type}.

(** [torch.cat((a, b), dim=1)] *)
Definition cat1 (a b : t A) : result (t A) :=
  if nrows a =? nrows b
  then ret (mk (nrows a) (ncols a + ncols b)
               (zip_with (@app A) (rows a) (rows b)))
  else raise RuntimeError.

(** [m[:, :c]] *)
Definition take_cols (m : t A) (c : nat) : t A :=
  mk (nrows m) (Nat.min c (ncols m)) (map (firstn c) (rows m)).

(** [m[:, 1:]] *)
Definition drop_first_col (m : t A) : t A :=
  mk (nrows m) (ncols m - 1) (map (skipn 1) (rows m)).

(** [l[:-1]] on a 1-D tensor. *)
Definition drop_last (l : list A) : list A := removelast l.

(** One row of [torch.take_along_dim(m, idx, dim=1)]: the entries of [r]
    at the positions listed in [ix].  The positions come from [argsort]
    and are inside the row; a position outside would raise in torch and is
    skipped here. *)
Definition gather (r : list A) (ix : list nat) : list A :=
  flat_map (fun j => match nth_error r j with
                     | Some v => [v]
                     | None => []
                     end) ix.

Definition take_along_dim1 (m : t A) (idx : t nat) : t A :=
  mk (nrows m) (ncols m) (zip_with gather (rows m) (rows idx)).

(** [m.T] *)
Definition column (j : nat) (rs : list (list A)) : list A :=
  flat_map (fun r => match nth_error r j with
                     | Some v => [v]
                     | None => []
                     end) rs.

Definition transpose (m : t A) : t A :=
  mk (ncols m) (nrows m) (map (fun j => column j (rows m)) (seq 0 (ncols m))).

Definition map2d {B} (f : A -> B) (m : t A) : t B :=
  mk (nrows m) (ncols m) (map (map f) (rows m)).

(** Insertion of an index into a list of indices sorted by key. *)
Fixpoint insert_by (leb : A -> A -> bool) (x : A * nat) (l : list (A * nat))
  : list (A * nat) :=
  match l with
  | [] => [x]
  | y :: l' => if leb (fst x) (fst y) then x :: y :: l'
               else y :: insert_by leb x l'
  end.

Definition sort_by (leb : A -> A -> bool) (l : list (A * nat)) : list (A * nat) :=
  fold_right (insert_by leb) [] l.

(** [l.argsort()]: the positions of [l] in increasing order of their
    entries. *)
Definition argsort (leb : A -> A -> bool) (l : list A) : list nat :=
  map snd (sort_by leb (combine l (seq 0 (length l)))).

Definition argsort1 (leb : A -> A -> bool) (m : t A) : t nat :=
  mk (nrows m) (ncols m) (map (argsort leb) (rows m)).

(** A tensor of the given shape whose entries are drawn by [g]. *)
Definition tabulate (g : nat -> nat -> A) (r c : nat) : t A :=
  mk r c (map (fun i => map (g i) (seq 0 c)) (seq 0 r)).

End Poly3.

(** Broadcasting of one dimension: equal sizes, or one of them is 1. *)
Definition broadcast_dim (a b : nat) : option nat :=
  if a =? b then Some a
  else if a =? 1 then Some b
  else if b =? 1 then Some a
  else None.

(** A list of one element is repeated to the size [n]. *)
Definition expand_list {B} (n : nat) (l : list B) : list B :=
  match l with
  | [v] => repeat v n
  | _ => l
  end.

(** [m.expand(r, c)] *)
Definition expand {A} (m : t A) (r c : nat) : t A :=
  mk r c (map (expand_list c) (expand_list r (rows m))).

(** An entrywise binary operation [f(a, b)] with broadcasting. *)
Definition zip2d {A B C} (f : A -> B -> C) (a : t A) (b : t B)
  : result (t C) :=
  match broadcast_dim (nrows a) (nrows b),
        broadcast_dim (ncols a) (ncols b) with
  | Some r, Some c =>
      ret (mk r c (zip_with (zip_with f) (rows (expand a r c))
                                         (rows (expand b r c))))
  | _, _ => raise RuntimeError
  end.

End Tensor.

Import Tensor.

(* ================================================================== *)
(** * Numeric helpers *)

Open Scope R_scope.

(** [l.sum()] *)
Definition sum_list (l : list R) : R := fold_right Rplus 0 l.

(** [l.mean()] *)
Definition mean (l : list R) : R := sum_list l / INR (length l).

(** [F.relu] *)
Definition relu (v : R) : R := Rmax 0 v.

(** The comparison used to sort random draws. *)
Definition Rleb (a b : R) : bool := if Rle_dec a b then true else false.

(** The inner product of two rows. *)
Definition dot (u v : list R) : R := sum_list (zip_with Rmult u v).

(** [a @ b]; [RuntimeError] when the inner sizes differ. *)
Definition matmul (a b : Tensor.t R) : result (Tensor.t R) :=
  if (ncols a =? nrows b)%nat
  then ret (Tensor.mk (nrows a) (ncols b)
              (map (fun ra => map (fun j => dot ra (column j (rows b)))
                                  (seq 0 (ncols b)))
                   (rows a)))
  else raise RuntimeError.

(* ================================================================== *)
(** * The constants of the module [config] *)

Module Config.

Record t : Type := mk {
  N_negative : option nat;    (* cap on the negatives; [None] or 0: no cap *)
  BATCH_SIZE : nat;
  HIDDEN_DIM : nat;
  VICREG_SIM_COEFF : R;
  VICREG_STD_COEFF : R;
  VICREG_COV_COEFF : R
}.

End Config.

(* ================================================================== *)
(** * [class SimCLR_TT_Loss] *)

Module SimCLR_TT_Loss.

(** The attributes set by [__init__]; [criterion] is the fixed
    [nn.CrossEntropyLoss(reduction="sum")], see [criterion] below. *)
Record t : Type := mk {
  batch_size : nat;
  temperature : R;
  mask : Tensor.t bool;
  sim_func : Tensor.t R -> Tensor.t R -> Tensor.t R
}.

(** [mask_correlated_samples(self, batch_size)] *)
Definition mask_correlated_samples (batch_size : nat) : result (Tensor.t bool) :=
  let mask := full (2 * batch_size) (2 * batch_size) true in
  let mask := fill_diagonal_ mask false in
  for_range batch_size
    (fun i mask =>
       mask <- setitem mask i (batch_size + i) false ;;
       setitem mask (batch_size + i) i false)
    mask.

(** [__init__(self, sim_func, batch_size, temperature)] *)
Definition init (sim_func : Tensor.t R -> Tensor.t R -> Tensor.t R)
  (batch_size : nat) (temperature : R) : result t :=
  mask <- mask_correlated_samples batch_size ;;
  ret (mk batch_size temperature mask sim_func).

(** One row of the cross entropy: [-log_softmax(row)[label]]. *)
Definition cross_entropy_row (row : list R) (label : nat) : result R :=
  match nth_error row label with
  | Some v => ret (ln (sum_list (map exp row)) - v)
  | None => raise IndexError
  end.

Fixpoint cross_entropy_rows (rs : list (list R)) (labels : list nat)
  : result (list R) :=
  match rs, labels with
  | r :: rs', l :: labels' =>
      v <- cross_entropy_row r l ;;
      vs <- cross_entropy_rows rs' labels' ;;
      ret (v :: vs)
  | _, _ => ret []
  end.

(** [nn.CrossEntropyLoss(reduction="sum")(logits, labels)] *)
Definition criterion (logits : Tensor.t R) (labels : list nat) : result R :=
  if (nrows logits =? length labels)%nat
  then vs <- cross_entropy_rows (rows logits) labels ;; ret (sum_list vs)
  else raise ValueError.

(** [sim = self.sim_func(z, z) / self.temperature] on
    [z = torch.cat((x, x_pair), dim=0)] *)
Definition similarity (self : t) (x x_pair : Tensor.t R) : result (Tensor.t R) :=
  z <- cat0 x x_pair ;;
  ret (map2d (fun v => v / temperature self) (sim_func self z z)).

(** The entries corresponding to the positive pairs. *)
Definition positive_samples (self : t) (sim : Tensor.t R) : result (Tensor.t R) :=
  let N := (2 * batch_size self)%nat in
  let sim_i_j := diag sim (Z.of_nat (batch_size self)) in
  let sim_j_i := diag sim (- Z.of_nat (batch_size self)) in
  view (sim_i_j ++ sim_j_i) (Z.of_nat N) 1.

(** [sim[self.mask].reshape(N, -1)] *)
Definition all_negative_samples (self : t) (sim : Tensor.t R)
  : result (Tensor.t R) :=
  let N := (2 * batch_size self)%nat in
  sel <- masked_select sim (mask self) ;;
  view sel (Z.of_nat N) (-1).

(** The branch [if config.N_negative:]: a random permutation of every
    row, then the first [N_negative] columns.  [rnd i j] is the entry
    [(i, j)] of the tensor drawn by [torch.rand]. *)
Definition subsample (cfg : Config.t) (rnd : nat -> nat -> R)
  (negative_samples : Tensor.t R) : Tensor.t R :=
  match Config.N_negative cfg with
  | Some (S c) =>
      let u := tabulate rnd (nrows negative_samples) (ncols negative_samples) in
      let negative_samples :=
        take_along_dim1 negative_samples (argsort1 Rleb u) in
      take_cols negative_samples (S c)
  | _ => negative_samples
  end.

(** The tensor [logits] of [forward]. *)
Definition logits (cfg : Config.t) (rnd : nat -> nat -> R) (self : t)
  (x x_pair : Tensor.t R) : result (Tensor.t R) :=
  sim <- similarity self x x_pair ;;
  positive_samples <- positive_samples self sim ;;
  negative_samples <- all_negative_samples self sim ;;
  let negative_samples := subsample cfg rnd negative_samples in
  cat1 positive_samples negative_samples.

(** [forward(self, x, x_pair, labels=None)] *)
Definition forward (cfg : Config.t) (rnd : nat -> nat -> R) (self : t)
  (x x_pair : Tensor.t R) : result R :=
  let N := (2 * batch_size self)%nat in
  logits <- logits cfg rnd self x x_pair ;;
  let labels := repeat 0%nat N in
  loss <- criterion logits labels ;;
  ret (loss / INR N).

(** The row of the positive partner of row [i], as the specification
    names it: [i + N] for the first half of the batch, [i - N] for the
    second. *)
Definition partner (batch_size i : nat) : nat :=
  if (i <? batch_size)%nat then (i + batch_size)%nat else (i - batch_size)%nat.

End SimCLR_TT_Loss.

(* ================================================================== *)
(** * [class BYOL_TT_Loss] *)

Module BYOL_TT_Loss.

Record t : Type := mk {
  sim_func : Tensor.t R -> Tensor.t R -> Tensor.t R
}.

(** [__init__(self, sim_func)] *)
Definition init (sim_func : Tensor.t R -> Tensor.t R -> Tensor.t R) : t :=
  mk sim_func.

(** The default [eps] of [F.normalize]. *)
Definition eps : R := / 10 ^ 12.

(** The largest finite value of float32, the default dtype of torch. *)
Definition float_max : R := (2 - / 2 ^ 23) * 2 ^ 127.

(** The Euclidean norm of a row whose sum of squares is in the range of
    the floats. *)
Definition norm2 (r : list R) : R := sqrt (sum_list (map (fun v => v * v) r)).

(** [F.normalize(x, dim=-1, p=2)]: every row is divided by
    [max(norm, eps)].  When the sum of the squares is above [float_max],
    the norm is [inf] and the quotient is a row of zeros. *)
Definition normalize_row (r : list R) : list R :=
  if Rleb (sum_list (map (fun v => v * v) r)) float_max
  then map (fun v => v / Rmax (norm2 r) eps) r
  else map (fun _ => 0) r.

Definition normalize (x : Tensor.t R) : Tensor.t R :=
  Tensor.mk (nrows x) (ncols x) (map normalize_row (rows x)).

(** [forward(self, x, x_pair, labels=None)] *)
Definition forward (self : t) (x x_pair : Tensor.t R) : result (list R) :=
  let x := normalize x in
  let x_pair := normalize x_pair in
  prod <- zip2d Rmult x x_pair ;;
  ret (map (fun r => 2 - 2 * sum_list r) (rows prod)).

End BYOL_TT_Loss.

(* ================================================================== *)
(** * [class VICReg_TT_Loss] *)

Module VICReg_TT_Loss.

(** The diagnostics that [forward] stores in the instance. *)
Record t : Type := mk {
  positive_distance : option R;
  log_prob : option R;
  log_cond_prob : option R
}.

(** [__init__(self)] *)
Definition init : t := mk None None None.

(** [off_diagonal(self, x)] *)
Definition off_diagonal {A} (x : Tensor.t A) : result (list A) :=
  let n := nrows x in
  let m := ncols x in
  if negb (n =? m)%nat then raise AssertionError
  else
    v <- view (drop_last (flatten x)) (Z.of_nat n - 1) (Z.of_nat n + 1) ;;
    ret (flatten (drop_first_col v)).

(** [F.mse_loss(x, y)] *)
Definition mse_loss (x y : Tensor.t R) : result R :=
  d <- zip2d (fun a b => (a - b) ^ 2) x y ;;
  ret (mean (flatten d)).

(** [x.mean(dim=0)] *)
Definition mean0 (x : Tensor.t R) : list R :=
  map (fun j => mean (column j (rows x))) (seq 0 (ncols x)).

(** [x - v] for a row vector [v] *)
Definition sub_rowvec (x : Tensor.t R) (v : list R) : Tensor.t R :=
  Tensor.mk (nrows x) (ncols x) (map (fun r => zip_with Rminus r v) (rows x)).

(** The unbiased variance of a column. *)
Definition var (c : list R) : R :=
  sum_list (map (fun v => (v - mean c) ^ 2) c) / (INR (length c) - 1).

(** [x.var(dim=0)] *)
Definition var0 (x : Tensor.t R) : list R :=
  map (fun j => var (column j (rows x))) (seq 0 (ncols x)).

(** [torch.sqrt(x.var(dim=0) + 0.0001)] *)
Definition std (x : Tensor.t R) : list R :=
  map (fun v => sqrt (v + / 10 ^ 4)) (var0 x).

(** [x - x.mean(dim=0)] *)
Definition center (x : Tensor.t R) : Tensor.t R := sub_rowvec x (mean0 x).

(** [(x.T @ x) / (config.BATCH_SIZE - 1)] *)
Definition cov (cfg : Config.t) (x : Tensor.t R) : result (Tensor.t R) :=
  g <- matmul (transpose x) x ;;
  ret (map2d (fun v => v / (INR (Config.BATCH_SIZE cfg) - 1)) g).

(** [self.off_diagonal(c).pow_(2).sum().div(config.HIDDEN_DIM)] *)
Definition cov_penalty (cfg : Config.t) (c : Tensor.t R) : result R :=
  o <- off_diagonal c ;;
  ret (sum_list (map (fun v => v ^ 2) o) / INR (Config.HIDDEN_DIM cfg)).

(** [torch.mean(F.relu(1 - std_x)) / 2 + torch.mean(F.relu(1 - std_y)) / 2]
    on the centred batches. *)
Definition std_loss (x y : Tensor.t R) : R :=
  let std_x := std x in
  let std_y := std y in
  mean (map (fun s => relu (1 - s)) std_x) / 2 +
  mean (map (fun s => relu (1 - s)) std_y) / 2.

(** The covariance term on the centred batches. *)
Definition cov_loss (cfg : Config.t) (x y : Tensor.t R) : result R :=
  cov_x <- cov cfg x ;;
  cov_y <- cov cfg y ;;
  px <- cov_penalty cfg cov_x ;;
  py <- cov_penalty cfg cov_y ;;
  ret (px + py).

(** The three terms [(repr_loss, std_loss, cov_loss)] that [forward]
    computes from its inputs. *)
Definition terms (cfg : Config.t) (x y : Tensor.t R) : result (R * R * R) :=
  repr_loss <- mse_loss x y ;;
  let x := center x in
  let y := center y in
  let std_loss := std_loss x y in
  cov_loss <- cov_loss cfg x y ;;
  ret (repr_loss, std_loss, cov_loss).

(** The covariance term [cov_loss] that [forward] computes from its
    inputs. *)
Definition cov_term (cfg : Config.t) (x y : Tensor.t R) : result R :=
  tm <- terms cfg x y ;;
  ret (snd tm).

(** [forward(self, x, y)]: the loss and the instance with its new
    diagnostics. *)
Definition forward (cfg : Config.t) (self : t) (x y : Tensor.t R)
  : result (R * t) :=
  tm <- terms cfg x y ;;
  let '(repr_loss, std_loss, cov_loss) := tm in
  let self := mk (Some repr_loss) (Some (- cov_loss - std_loss))
                 (Some (- repr_loss)) in
  let loss := Config.VICREG_SIM_COEFF cfg * repr_loss
              + Config.VICREG_STD_COEFF cfg * std_loss
              + Config.VICREG_COV_COEFF cfg * cov_loss in
  ret (loss, self).

(** [x[pi]]: the rows of [x] in the order given by the indices [pi]. *)
Definition permute_rows (pi : list nat) (x : Tensor.t R) : Tensor.t R :=
  Tensor.mk (length pi) (ncols x) (gather (rows x) pi).

(** The covariance term as the specification writes it, for a centred
    batch of shape [(n, d)]: the covariance matrix is [X^T X / (n - 1)],
    and the sum of the squares of its off-diagonal entries is divided by
    [d]. *)
Definition gram_entry (x : Tensor.t R) (j k : nat) : R :=
  sum_list (map (fun r => nth j r 0 * nth k r 0) (rows x)).

Definition off_sum (d : nat) (f : nat -> nat -> R) : R :=
  sum_list (map (fun j =>
    sum_list (map (fun k => if (j =? k)%nat then 0 else f j k) (seq 0 d)))
    (seq 0 d)).

Definition cov_penalty_spec (n d : R) (x : Tensor.t R) : R :=
  off_sum (ncols x) (fun j k => (gram_entry x j k / (n - 1)) ^ 2) / d.

Definition cov_loss_spec (x y : Tensor.t R) : R :=
  cov_penalty_spec (INR (nrows x)) (INR (ncols x)) x +
  cov_penalty_spec (INR (nrows y)) (INR (ncols y)) y.

(** The entries [m[i][j]] with [i <> j], in row-major order. *)
Definition off_entries {A} (m : Tensor.t A) : list A :=
  flat_map (fun i =>
    flat_map (fun j =>
      if (i =? j)%nat then []
      else match get m i j with Some v => [v] | None => [] end)
      (seq 0 (ncols m)))
    (seq 0 (nrows m)).

End VICReg_TT_Loss.

(* ================================================================== *)
(** * Facts on the operations on tensors *)

Section TensorFacts.
Context {A : Type}.
Implicit Types (m : Tensor.t A) (l : list A) (i j : nat).

Lemma nth_error_update l i k (f : A -> A) :
  nth_error (update i f l) k =
  if (k =? i)%nat then option_map f (nth_error l k) else nth_error l k.
Proof.
  revert i k; induction l as [|a l IH]; intros [|i] [|k]; simpl;
    try reflexivity.
  - destruct (k =? i)%nat; reflexivity.
  - apply IH.
Qed.

Lemma nth_error_update_row (rs : list (list A)) i k f :
  nth_error (update_row i f rs) k =
  if (k =? i)%nat then option_map f (nth_error rs k) else nth_error rs k.
Proof.
  revert i k; induction rs as [|a rs IH]; intros [|i] [|k]; simpl;
    try reflexivity.
  - destruct (k =? i)%nat; reflexivity.
  - apply IH.
Qed.

Lemma length_update l i f : length (update i f l) = length l.
Proof.
  revert i; induction l as [|a l IH]; intros [|i]; simpl; congruence.
Qed.

Lemma length_update_row (rs : list (list A)) i f :
  length (update_row i f rs) = length rs.
Proof.
  revert i; induction rs as [|a rs IH]; intros [|i]; simpl; congruence.
Qed.

Lemma Forall_update_row (P : list A -> Prop) (rs : list (list A)) i f :
  (forall r, P r -> P (f r)) -> Forall P rs -> Forall P (update_row i f rs).
Proof.
  intros Hf H; revert i; induction H as [|a rs Ha Hrs IH]; intros [|i]; simpl;
    constructor; auto.
Qed.

(** A store changes the entry it names and no other; the domain of the
    tensor is unchanged. *)
Lemma get_set_entry m i j v i' j' :
  get (set_entry m i j v) i' j' =
  option_map (fun w => if (i' =? i)%nat && (j' =? j)%nat then v else w)
             (get m i' j').
Proof.
  unfold get, set_entry; simpl.
  rewrite nth_error_update_row.
  destruct (Nat.eqb_spec i' i) as [->|Hi]; simpl.
  - destruct (nth_error (rows m) i) as [r|]; simpl; [|reflexivity].
    rewrite nth_error_update.
    destruct (j' =? j)%nat; destruct (nth_error r j'); reflexivity.
  - destruct (nth_error (rows m) i') as [r|]; [|reflexivity].
    destruct (nth_error r j'); reflexivity.
Qed.

Lemma setitem_ok m i j v :
  (i < nrows m)%nat -> (j < ncols m)%nat ->
  setitem m i j v = inr (set_entry m i j v).
Proof.
  intros Hi Hj. unfold setitem.
  apply Nat.ltb_lt in Hi, Hj. now rewrite Hi, Hj.
Qed.

Lemma wf_set_entry m i j v : wf m -> wf (set_entry m i j v).
Proof.
  intros [H1 H2]; split; simpl.
  - now rewrite length_update_row.
  - apply Forall_update_row; [|assumption].
    intros r Hr; now rewrite length_update.
Qed.

Lemma wf_full r c (v : A) : wf (full r c v).
Proof.
  split; simpl.
  - apply repeat_length.
  - apply Forall_forall; intros x Hx.
    apply repeat_spec in Hx; subst; apply repeat_length.
Qed.

Lemma nth_error_repeat' {B} (b : B) n k :
  nth_error (repeat b n) k = if (k <? n)%nat then Some b else None.
Proof.
  revert k; induction n as [|n IH]; intros [|k]; simpl; try reflexivity.
  rewrite IH. reflexivity.
Qed.

Lemma get_full r c (v : A) i j :
  get (full r c v) i j = if (i <? r)%nat && (j <? c)%nat then Some v else None.
Proof.
  unfold get, full; simpl.
  rewrite nth_error_repeat'.
  destruct (i <? r)%nat; simpl; [|reflexivity].
  apply nth_error_repeat'.
Qed.

(** Entries of a tensor after a sequence of stores on the diagonal. *)
Lemma get_fold_diag (ks : list nat) m v i j :
  get (fold_left (fun m' k => set_entry m' k k v) ks m) i j =
  option_map (fun w => if (i =? j)%nat && existsb (Nat.eqb i) ks then v else w)
             (get m i j).
Proof.
  revert m; induction ks as [|k ks IH]; intros m; simpl.
  - destruct (get m i j); simpl; [|reflexivity].
    now rewrite andb_false_r.
  - rewrite IH, get_set_entry.
    destruct (get m i j) as [w|]; simpl; [|reflexivity].
    f_equal.
    destruct (Nat.eqb_spec i j) as [E|Hij]; simpl.
    + subst j. destruct (Nat.eqb_spec i k); simpl; [|reflexivity].
      now destruct (existsb (Nat.eqb i) ks).
    + destruct (Nat.eqb_spec i k), (Nat.eqb_spec j k); simpl; congruence.
Qed.

Lemma shape_fold_diag (ks : list nat) m v :
  shape (fold_left (fun m' k => set_entry m' k k v) ks m) = shape m /\
  (wf m -> wf (fold_left (fun m' k => set_entry m' k k v) ks m)).
Proof.
  revert m; induction ks as [|k ks IH]; intros m; simpl.
  - auto.
  - destruct (IH (set_entry m k k v)) as [E W]; split.
    + rewrite E; reflexivity.
    + intros Hm; apply W, wf_set_entry, Hm.
Qed.

Lemma existsb_eqb_seq i a n :
  existsb (Nat.eqb i) (seq a n) = ((a <=? i)%nat && (i <? a + n)%nat).
Proof.
  revert a; induction n as [|n IH]; intros a; simpl.
  - destruct (Nat.leb_spec a i), (Nat.ltb_spec i (a + 0)); simpl; auto; lia.
  - rewrite IH.
    destruct (Nat.eqb_spec i a), (Nat.leb_spec (S a) i), (Nat.leb_spec a i),
      (Nat.ltb_spec i (S a + n)), (Nat.ltb_spec i (a + S n)); simpl; auto; lia.
Qed.

Lemma get_fill_diagonal_ m v i j :
  get (fill_diagonal_ m v) i j =
  option_map (fun w => if (i =? j)%nat && (i <? Nat.min (nrows m) (ncols m))%nat
                       then v else w)
             (get m i j).
Proof.
  unfold fill_diagonal_. rewrite get_fold_diag, existsb_eqb_seq.
  reflexivity.
Qed.

Lemma shape_fill_diagonal_ m v : shape (fill_diagonal_ m v) = shape m.
Proof. apply shape_fold_diag. Qed.

Lemma wf_fill_diagonal_ m v : wf m -> wf (fill_diagonal_ m v).
Proof. apply shape_fold_diag. Qed.

Lemma get_Some_lt m i j v :
  wf m -> get m i j = Some v -> (i < nrows m)%nat /\ (j < ncols m)%nat.
Proof.
  intros [H1 H2]; unfold get.
  destruct (nth_error (rows m) i) as [r|] eqn:E; [|discriminate].
  intros Hj. split.
  - rewrite <- H1. apply nth_error_Some. congruence.
  - apply nth_error_In in E. rewrite Forall_forall in H2.
    rewrite <- (H2 _ E). apply nth_error_Some. congruence.
Qed.

Lemma get_lt_Some m i j :
  wf m -> (i < nrows m)%nat -> (j < ncols m)%nat -> exists v, get m i j = Some v.
Proof.
  intros [H1 H2] Hi Hj; unfold get.
  destruct (nth_error (rows m) i) as [r|] eqn:E.
  - apply nth_error_In in E as E'. rewrite Forall_forall in H2.
    destruct (nth_error r j) as [v|] eqn:Ej; [eauto|].
    apply nth_error_None in Ej. rewrite (H2 _ E') in Ej. lia.
  - apply nth_error_None in E. lia.
Qed.

End TensorFacts.

(* ================================================================== *)
(** * The correlation mask of [SimCLR_TT_Loss] *)

Section Mask.
Import SimCLR_TT_Loss.
Local Open Scope nat_scope.

Variable N : nat.

(** The body of the loop of [mask_correlated_samples]. *)
Let body (i : nat) (mask : Tensor.t bool) : result (Tensor.t bool) :=
  mask <- setitem mask i (N + i) false ;;
  setitem mask (N + i) i false.

(** The positions written by the iterations [start, start + n). *)
Definition written (start n i j : nat) : bool :=
  ((start <=? i) && (i <? start + n) && (j =? N + i)) ||
  ((start <=? j) && (j <? start + n) && (i =? N + j)).

Lemma written_0 start i j : written start 0 i j = false.
Proof.
  unfold written.
  destruct (Nat.leb_spec start i), (Nat.ltb_spec i (start + 0)),
    (Nat.leb_spec start j), (Nat.ltb_spec j (start + 0)); simpl; auto; lia.
Qed.

Lemma written_S start n i j :
  written start (S n) i j =
  ((i =? start) && (j =? N + start)) || ((i =? N + start) && (j =? start))
  || written (S start) n i j.
Proof.
  unfold written.
  destruct (Nat.leb_spec start i), (Nat.ltb_spec i (start + S n)),
    (Nat.leb_spec start j), (Nat.ltb_spec j (start + S n)),
    (Nat.leb_spec (S start) i), (Nat.ltb_spec i (S start + n)),
    (Nat.leb_spec (S start) j), (Nat.ltb_spec j (S start + n)),
    (Nat.eqb_spec j (N + i)), (Nat.eqb_spec i (N + j)),
    (Nat.eqb_spec i start), (Nat.eqb_spec j (N + start)),
    (Nat.eqb_spec i (N + start)), (Nat.eqb_spec j start);
    simpl; auto; lia.
Qed.

Lemma mask_loop n : forall start (m : Tensor.t bool),
  start + n <= N -> shape m = (2 * N, 2 * N) -> wf m ->
  exists m', for_range_from start n body m = inr m' /\
    shape m' = (2 * N, 2 * N) /\ wf m' /\
    forall i j, get m' i j =
      option_map (fun w => if written start n i j then false else w)
                 (get m i j).
Proof.
  induction n as [|n IH]; intros start m Hn Hs Hw.
  - exists m; simpl; repeat split; try assumption; try apply Hw.
    intros i j. rewrite written_0. now destruct (get m i j).
  - injection Hs as Hr Hc.
    assert (E1 : body start m =
                 inr (set_entry (set_entry m start (N + start) false)
                                (N + start) start false)).
    { unfold body. rewrite setitem_ok by lia. cbn [bind].
      rewrite setitem_ok by (simpl; lia). reflexivity. }
    cbn [for_range_from]. rewrite E1. cbn [bind].
    set (m1 := set_entry (set_entry m start (N + start) false) (N + start) start false).
    destruct (IH (S start) m1) as (m' & E & Hs' & Hw' & Hg).
    + lia.
    + unfold m1, shape; simpl. now rewrite Hr, Hc.
    + unfold m1. now apply wf_set_entry, wf_set_entry.
    + exists m'. split; [exact E|]. split; [exact Hs'|]. split; [exact Hw'|].
      intros i j. rewrite Hg. unfold m1. rewrite !get_set_entry.
      rewrite written_S.
      destruct (get m i j) as [w|]; simpl; [|reflexivity].
      f_equal.
      destruct ((i =? start) && (j =? N + start)),
        ((i =? N + start) && (j =? start)), (written (S start) n i j);
        reflexivity.
Qed.

(** The entries of the mask, position by position. *)
Lemma mask_entries :
  exists mask, mask_correlated_samples N = inr mask /\
    shape mask = (2 * N, 2 * N) /\ wf mask /\
    forall i j, i < 2 * N -> j < 2 * N ->
      get mask i j = Some (negb ((i =? j) || (j =? N + i) || (i =? N + j))).
Proof.
  unfold mask_correlated_samples, for_range.
  set (m0 := fill_diagonal_ (full (2 * N) (2 * N) true) false).
  assert (Hs0 : shape m0 = (2 * N, 2 * N))
    by (unfold m0; rewrite shape_fill_diagonal_; reflexivity).
  assert (Hw0 : wf m0) by apply wf_fill_diagonal_, wf_full.
  destruct (@mask_loop N 0 m0) as (m' & E & Hs' & Hw' & Hg);
    [lia | assumption | assumption |].
  exists m'. split; [exact E|]. split; [exact Hs'|]. split; [exact Hw'|].
  intros i j Hi Hj. rewrite Hg. unfold m0.
  rewrite get_fill_diagonal_, get_full. simpl nrows; simpl ncols.
  rewrite Nat.min_id.
  replace (i <? 2 * N) with true by (symmetry; apply Nat.ltb_lt; lia).
  replace (j <? 2 * N) with true by (symmetry; apply Nat.ltb_lt; lia).
  cbn [option_map andb]. f_equal. unfold written.
  assert (Hi' : (i <? N + (N + 0)) = true) by (apply Nat.ltb_lt; lia).
  rewrite Hi'.
  destruct (Nat.eqb_spec i j), (Nat.eqb_spec j (N + i)),
    (Nat.eqb_spec i (N + j)), (Nat.ltb_spec i (0 + N)),
    (Nat.ltb_spec j (0 + N)), (Nat.leb_spec 0 i), (Nat.leb_spec 0 j);
    simpl; auto; lia.
Qed.

(** Inside the batch, "the row [N] further, modulo [2 N]" is the row
    [N] above or [N] below. *)
Lemma offset_mod i j :
  i < 2 * N -> j < 2 * N ->
  (j =? (i + N) mod (2 * N)) = ((j =? N + i) || (i =? N + j)).
Proof.
  intros Hi Hj.
  destruct (Nat.ltb_spec i N) as [Hlt|Hge].
  - rewrite Nat.mod_small by lia.
    destruct (Nat.eqb_spec j (i + N)), (Nat.eqb_spec j (N + i)),
      (Nat.eqb_spec i (N + j)); simpl; auto; lia.
  - assert (E : (i + N) mod (2 * N) = i - N).
    { symmetry. apply Nat.mod_unique with (q := 1); lia. }
    rewrite E.
    destruct (Nat.eqb_spec j (i - N)), (Nat.eqb_spec j (N + i)),
      (Nat.eqb_spec i (N + j)); simpl; auto; lia.
Qed.

End Mask.

(** C2. For every batch size [N >= 1], [mask_correlated_samples N] returns
    a well-formed boolean tensor of shape [(2 N, 2 N)] that is symmetric,
    is false exactly at the entries [(i, i)] and [(i, (i + N) mod 2 N)],
    and is true at every other entry. *)
Theorem mask_correlated_samples_spec (N : nat) :
  (1 <= N)%nat ->
  exists mask,
    SimCLR_TT_Loss.mask_correlated_samples N = inr mask /\
    shape mask = (2 * N, 2 * N)%nat /\ wf mask /\
    (forall i j, (i < 2 * N)%nat -> (j < 2 * N)%nat ->
       get mask i j = get mask j i) /\
    (forall i j, (i < 2 * N)%nat -> (j < 2 * N)%nat ->
       get mask i j =
       Some (negb ((j =? i)%nat || (j =? (i + N) mod (2 * N))%nat))).
Proof.
  intros _.
  destruct (mask_entries N) as (mask & E & Hs & Hw & Hg).
  exists mask. repeat split; try assumption; try apply Hw.
  - intros i j Hi Hj. rewrite (Hg i j Hi Hj), (Hg j i Hj Hi).
    do 2 f_equal.
    destruct (Nat.eqb_spec i j), (Nat.eqb_spec j i), (Nat.eqb_spec j (N + i)),
      (Nat.eqb_spec i (N + j)); simpl; auto; lia.
  - intros i j Hi Hj. rewrite (Hg i j Hi Hj), (@offset_mod N i j Hi Hj).
    do 2 f_equal. rewrite orb_assoc. f_equal. f_equal. apply Nat.eqb_sym.
Qed.

Lemma mask_correlated_samples_spec_witness :
  (1 <= 2)%nat /\
  exists mask,
    SimCLR_TT_Loss.mask_correlated_samples 2 = inr mask /\
    shape mask = (2 * 2, 2 * 2)%nat /\ wf mask /\
    (forall i j, (i < 2 * 2)%nat -> (j < 2 * 2)%nat ->
       get mask i j = get mask j i) /\
    (forall i j, (i < 2 * 2)%nat -> (j < 2 * 2)%nat ->
       get mask i j =
       Some (negb ((j =? i)%nat || (j =? (i + 2) mod (2 * 2))%nat))).
Proof.
  split; [lia | apply (mask_correlated_samples_spec (N := 2)); lia].
Defined.

(** The mask for a batch of two samples, as the code computes it. *)
Example mask_correlated_samples_2 :
  SimCLR_TT_Loss.mask_correlated_samples 2 =
  inr (Tensor.mk 4 4 [[false; true; false; true];
                      [true; false; true; false];
                      [false; true; false; true];
                      [true; false; true; false]]).
Proof. reflexivity. Qed.

(* ================================================================== *)
(** * The off-diagonal entries of a square tensor *)

Section OffDiagonal.
Context {A : Type}.
Import VICReg_TT_Loss.
Local Open Scope nat_scope.

Lemma flat_map_ext_In {B C} (f g : B -> list C) (l : list B) :
  (forall x, In x l -> f x = g x) -> flat_map f l = flat_map g l.
Proof.
  induction l as [|x l IH]; intros H; simpl.
  - reflexivity.
  - rewrite (H x) by (now left). rewrite IH; [reflexivity|].
    intros y Hy. apply H. now right.
Qed.

(** The rows [rs], numbered from [k], each without its diagonal entry. *)
Fixpoint without_diag (k : nat) (rs : list (list A)) : list A :=
  match rs with
  | [] => []
  | r :: rs' => firstn k r ++ skipn (S k) r ++ without_diag (S k) rs'
  end.

Lemma removelast_app_ne (l l' : list A) :
  l' <> [] -> removelast (l ++ l') = l ++ removelast l'.
Proof. intros H. now apply removelast_app. Qed.

Lemma length_removelast (l : list A) : length (removelast l) = length l - 1.
Proof.
  induction l as [|a [|b l] IH]; simpl in *; try reflexivity.
  rewrite IH. lia.
Qed.

(** The reshaping trick, row by row: the flattened tensor from the
    diagonal entry of row [k] on, without its last entry, cut in blocks of
    [n + 1] entries of which the first is dropped. *)
Lemma chunks_without_diag n : forall (rs : list (list A)) (r : list A) k,
  length r = n -> Forall (fun r' => length r' = n) rs ->
  k + S (length rs) = n ->
  concat (map (skipn 1)
            (chunks (length rs) (n + 1)
                    (removelast (skipn k r ++ concat rs)))) =
  skipn (S k) r ++ without_diag (S k) rs.
Proof.
  induction rs as [|r1 rs IH]; intros r k Hr Hrs Hk;
    cbn [length chunks map concat without_diag] in *.
  - rewrite app_nil_r. symmetry. apply skipn_all2. lia.
  - inversion Hrs as [|? ? Hr1 Hrs']; subst.
    assert (Hsplit : r1 = firstn (S k) r1 ++ skipn (S k) r1)
      by (symmetry; apply firstn_skipn).
    assert (Hne : skipn (S k) r1 ++ concat rs <> []).
    { intros H. apply (f_equal (@length A)) in H.
      rewrite length_app, length_skipn in H. cbn [length] in H. lia. }
    assert (E : removelast (skipn k r ++ r1 ++ concat rs) =
                (skipn k r ++ firstn (S k) r1) ++
                removelast (skipn (S k) r1 ++ concat rs)).
    { rewrite Hsplit at 1. rewrite <- !app_assoc.
      rewrite removelast_app_ne.
      - f_equal. rewrite removelast_app_ne by exact Hne. reflexivity.
      - intros H. apply (f_equal (@length A)) in H.
        rewrite !length_app, length_firstn, length_skipn in H.
        cbn [length] in H. lia. }
    rewrite E.
    assert (Hlen : length (skipn k r ++ firstn (S k) r1) = length r + 1).
    { rewrite length_app, length_skipn, length_firstn. lia. }
    rewrite firstn_app, Hlen, Nat.sub_diag, firstn_O, app_nil_r.
    rewrite firstn_all2 by lia.
    rewrite (skipn_app (length r + 1)), Hlen, Nat.sub_diag, skipn_O.
    rewrite (skipn_all2 (n := length r + 1)) by lia.
    cbn [app].
    rewrite (IH r1 (S k)); try assumption; try lia.
    rewrite skipn_app.
    replace (1 - length (skipn k r)) with 0
      by (rewrite length_skipn; lia).
    rewrite skipn_O, skipn_skipn.
    replace (1 + k) with (S k) by lia.
    rewrite <- !app_assoc. reflexivity.
Qed.

Lemma skipn_nth_error (r : list A) a v :
  nth_error r a = Some v -> skipn a r = v :: skipn (S a) r.
Proof.
  revert a; induction r as [|x r IH]; intros [|a] H; try discriminate.
  - injection H as ->. reflexivity.
  - cbn [nth_error] in H. apply IH in H.
    change (skipn (S a) (x :: r)) with (skipn a r).
    change (skipn (S (S a)) (x :: r)) with (skipn (S a) r).
    exact H.
Qed.

Lemma flat_map_nth_error_seq (r : list A) a len :
  flat_map (fun j => match nth_error r j with Some v => [v] | None => [] end)
           (seq a len) = firstn len (skipn a r).
Proof.
  revert a; induction len as [|len IH]; intros a.
  - reflexivity.
  - cbn [seq flat_map]. rewrite IH.
    destruct (nth_error r a) as [v|] eqn:E.
    + rewrite (skipn_nth_error _ _ E). reflexivity.
    + apply nth_error_None in E.
      rewrite !skipn_all2 by lia. now rewrite firstn_nil.
Qed.

(** The entries of one row outside the diagonal, by index. *)
Lemma row_off_entries (r : list A) i n :
  length r = n -> i < n ->
  flat_map (fun j => if i =? j then []
                     else match nth_error r j with
                          | Some v => [v]
                          | None => []
                          end) (seq 0 n) =
  firstn i r ++ skipn (S i) r.
Proof.
  intros Hr Hi.
  replace n with (i + (1 + (n - S i))) at 1 by lia.
  rewrite !seq_app, !flat_map_app. simpl.
  rewrite Nat.eqb_refl, app_nil_r. simpl.
  f_equal.
  - assert (H := flat_map_nth_error_seq r 0 i). rewrite skipn_O in H.
    rewrite <- H. apply flat_map_ext_In. intros j Hj.
    apply in_seq in Hj.
    destruct (Nat.eqb_spec i j); [lia | reflexivity].
  - replace (i + 1) with (S i) by lia.
    transitivity (firstn (n - S i) (skipn (S i) r)).
    + rewrite <- flat_map_nth_error_seq. apply flat_map_ext_In.
      intros j Hj. apply in_seq in Hj.
      destruct (Nat.eqb_spec i j); [lia | reflexivity].
    + assert (Hl : length (skipn (S i) r) <= n - S i)
        by (rewrite length_skipn; lia).
      apply firstn_all2. exact Hl.
Qed.

Lemma without_diag_entries n : forall (rs : list (list A)) k,
  Forall (fun r => length r = n) rs -> k + length rs <= n ->
  flat_map (fun i =>
    flat_map (fun j =>
      if i =? j then []
      else match match nth_error rs (i - k) with
                 | Some r => nth_error r j
                 | None => None
                 end with
           | Some v => [v]
           | None => []
           end) (seq 0 n)) (seq k (length rs)) =
  without_diag k rs.
Proof.
  induction rs as [|r rs IH]; intros k Hrs Hk.
  - reflexivity.
  - inversion Hrs as [|? ? Hr Hrs']; subst.
    cbn [length seq flat_map without_diag] in *.
    rewrite Nat.sub_diag. cbn [nth_error].
    rewrite row_off_entries by lia.
    rewrite <- app_assoc. do 2 f_equal.
    rewrite <- (IH (S k)) by (assumption || lia).
    apply flat_map_ext_In. intros i Hi. apply in_seq in Hi.
    replace (i - k) with (S (i - S k)) by lia.
    reflexivity.
Qed.

Lemma length_without_diag n : forall (rs : list (list A)) k,
  Forall (fun r => length r = n) rs -> k + length rs <= n ->
  length (without_diag k rs) = length rs * (n - 1).
Proof.
  induction rs as [|r rs IH]; intros k Hrs Hk.
  - reflexivity.
  - inversion Hrs as [|? ? Hr Hrs']; subst.
    cbn [length without_diag] in *.
    rewrite !length_app, length_firstn, length_skipn.
    rewrite (IH (S k)) by (assumption || lia). lia.
Qed.

Lemma length_concat_uniform n (rs : list (list A)) :
  Forall (fun r => length r = n) rs -> length (concat rs) = length rs * n.
Proof.
  induction 1 as [|r rs Hr _ IH]; simpl.
  - reflexivity.
  - rewrite length_app, IH, Hr. reflexivity.
Qed.

(** [view] with two non-negative sizes is [reshape]. *)
Lemma view_nonneg (l : list A) (r c : nat) :
  view l (Z.of_nat r) (Z.of_nat c) = reshape l r c.
Proof.
  unfold view.
  assert (E1 : Z.eqb (Z.of_nat r) (-1) = false) by (apply Z.eqb_neq; lia).
  assert (E2 : Z.eqb (Z.of_nat c) (-1) = false) by (apply Z.eqb_neq; lia).
  assert (E3 : Z.ltb (Z.of_nat r) 0 = false) by (apply Z.ltb_ge; lia).
  assert (E4 : Z.ltb (Z.of_nat c) 0 = false) by (apply Z.ltb_ge; lia).
  rewrite E1, E2, E3, E4.
  cbn [andb orb]. now rewrite !Nat2Z.id.
Qed.

(** On a well-formed square tensor with at least one row,
    [off_diagonal] returns the entries outside the diagonal in row-major
    order. *)
Lemma off_diagonal_row_major n (m : Tensor.t A) :
  1 <= n -> wf m -> shape m = (n, n) ->
  off_diagonal m = inr (off_entries m) /\
  length (off_entries m) = n * n - n.
Proof.
  intros Hn [Hlen Hrows] Hs. injection Hs as Hr Hc.
  rewrite Hr in Hlen. rewrite Hc in Hrows.
  assert (Eoff : off_entries m = without_diag 0 (rows m)).
  { unfold off_entries, get. rewrite Hr, Hc.
    rewrite <- (without_diag_entries (n := n)) by (assumption || lia).
    rewrite Hlen. apply flat_map_ext_In. intros i _.
    now rewrite Nat.sub_0_r. }
  split.
  - unfold off_diagonal. rewrite Hr, Hc, Nat.eqb_refl. cbn [negb].
    replace (Z.of_nat n - 1)%Z with (Z.of_nat (n - 1)) by lia.
    replace (Z.of_nat n + 1)%Z with (Z.of_nat (n + 1)) by lia.
    rewrite view_nonneg. unfold reshape, drop_last, flatten.
    rewrite length_removelast, (length_concat_uniform Hrows), Hlen.
    replace (n * n - 1 =? (n - 1) * (n + 1)) with true
      by (symmetry; apply Nat.eqb_eq; nia).
    cbn [bind drop_first_col rows]. rewrite Eoff.
    destruct (rows m) as [|r rs] eqn:Erows; [simpl in Hlen; lia|].
    pose proof (Forall_inv Hrows) as Hr0.
    pose proof (Forall_inv_tail Hrows) as Hrs.
    cbn [length] in Hlen.
    replace (n - 1) with (length rs) by lia.
    cbn [concat without_diag firstn app].
    unfold ret, flatten, bind, drop_first_col. cbn [rows]. f_equal.
    refine (@chunks_without_diag n rs r 0 Hr0 Hrs _). lia.
  - rewrite Eoff, (length_without_diag (n := n)) by (assumption || lia).
    rewrite Hlen. nia.
Qed.

End OffDiagonal.

(** C4. For every [n >= 1] and every [n x n] tensor [m],
    [off_diagonal m] returns a flat sequence of exactly [n^2 - n] entries
    whose multiset is the multiset of the entries [m[i][j]] with
    [i <> j]: no diagonal entry, every other entry exactly once. *)
Theorem off_diagonal_spec (A : Type) (n : nat) (m : Tensor.t A) :
  (1 <= n)%nat -> wf m -> shape m = (n, n) ->
  exists l,
    VICReg_TT_Loss.off_diagonal m = inr l /\
    length l = (n * n - n)%nat /\
    Permutation l (VICReg_TT_Loss.off_entries m).
Proof.
  intros Hn Hw Hs.
  destruct (off_diagonal_row_major Hn Hw Hs) as [E L].
  exists (VICReg_TT_Loss.off_entries m). repeat split; auto.
Qed.

(** The off-diagonal entries of a 3 x 3 tensor of naturals. *)
Definition m33 : Tensor.t nat :=
  Tensor.mk 3 3 [[11; 12; 13]; [21; 22; 23]; [31; 32; 33]]%nat.

Lemma wf_m33 : wf m33.
Proof. split; [reflexivity | repeat constructor]. Qed.

Lemma off_diagonal_spec_witness :
  exists l,
    VICReg_TT_Loss.off_diagonal m33 = inr l /\
    length l = (3 * 3 - 3)%nat /\
    Permutation l (VICReg_TT_Loss.off_entries m33).
Proof.
  apply (@off_diagonal_spec nat 3 m33); [lia | exact wf_m33 | reflexivity].
Defined.

Example off_diagonal_m33 :
  VICReg_TT_Loss.off_diagonal m33 = inr [12; 13; 21; 23; 31; 32]%nat.
Proof. reflexivity. Qed.

(* ================================================================== *)
(** * Sums and inner products of real rows *)

Section RealRows.
Local Open Scope R_scope.

Definition sumsq (r : list R) : R := sum_list (map (fun v => v * v) r).

Lemma sum_list_app l l' : sum_list (l ++ l') = sum_list l + sum_list l'.
Proof. induction l as [|a l IH]; simpl; [lra | rewrite IH; lra]. Qed.

Lemma sum_list_perm l l' : Permutation l l' -> sum_list l = sum_list l'.
Proof. induction 1; simpl; lra. Qed.

Lemma sum_list_map_scale (c : R) l :
  sum_list (map (fun v => v * c) l) = sum_list l * c.
Proof. induction l as [|a l IH]; simpl; [lra | rewrite IH; lra]. Qed.

Lemma sum_list_zero l : (forall v, In v l -> v = 0) -> sum_list l = 0.
Proof.
  induction l as [|a l IH]; intros H; simpl; [reflexivity|].
  rewrite (H a) by (now left). rewrite IH; [lra|].
  intros v Hv. apply H. now right.
Qed.

Lemma sumsq_nonneg r : 0 <= sumsq r.
Proof.
  unfold sumsq. induction r as [|a r IH]; simpl; [lra|]. nra.
Qed.





Lemma dot_scale (c d : R) a : forall b,
  dot (map (fun v => v / c) a) (map (fun v => v / d) b) = dot a b / (c * d).
Proof.
  unfold dot. induction a as [|x a IH]; intros [|y b]; simpl;
    try (unfold Rdiv; now rewrite Rmult_0_l).
  rewrite IH.
  destruct (Req_dec c 0) as [->|Hc].
  - unfold Rdiv. rewrite Rmult_0_l, Rinv_0. ring.
  - destruct (Req_dec d 0) as [->|Hd].
    + unfold Rdiv. rewrite Rmult_0_r, Rinv_0. ring.
    + field. split; assumption.
Qed.

End RealRows.

(* ================================================================== *)
(** * Entrywise operations on tensors of the same shape *)

Section Broadcast.
Context {A B C : Type}.

Lemma broadcast_dim_same n : broadcast_dim n n = Some n.
Proof. unfold broadcast_dim. now rewrite Nat.eqb_refl. Qed.

Lemma expand_list_id {T} n (l : list T) : length l = n -> expand_list n l = l.
Proof.
  destruct l as [|a [|b l]]; simpl; intros <-; reflexivity.
Qed.

Lemma rows_expand_id {T} (m : Tensor.t T) :
  wf m -> rows (expand m (nrows m) (ncols m)) = rows m.
Proof.
  intros [H1 H2]. unfold expand; simpl.
  rewrite (@expand_list_id _ _ _ H1).
  rewrite <- (map_id (rows m)) at 2.
  apply map_ext_in. intros r Hr.
  rewrite Forall_forall in H2. apply (@expand_list_id _ _ _ (H2 r Hr)).
Qed.

(** Without broadcasting, [zip2d] pairs the entries position by
    position. *)
Lemma zip2d_same_shape (f : A -> B -> C) (a : Tensor.t A) (b : Tensor.t B) :
  wf a -> wf b -> shape a = shape b ->
  zip2d f a b =
  inr (Tensor.mk (nrows a) (ncols a)
         (zip_with (zip_with f) (rows a) (rows b))).
Proof.
  intros Ha Hb Hs. injection Hs as Hr Hc. unfold zip2d.
  rewrite <- Hr, <- Hc, !broadcast_dim_same.
  rewrite (@rows_expand_id _ _ Ha).
  rewrite Hr, Hc, (@rows_expand_id _ _ Hb). reflexivity.
Qed.

Lemma length_zip_with (f : A -> B -> C) (l : list A) : forall (l' : list B),
  length (zip_with f l l') = Nat.min (length l) (length l').
Proof.
  induction l as [|a l IH]; intros [|b l']; simpl; auto.
Qed.

Lemma nth_error_zip_with (f : A -> B -> C) (l : list A) :
  forall (l' : list B) i,
  nth_error (zip_with f l l') i =
  match nth_error l i, nth_error l' i with
  | Some a, Some b => Some (f a b)
  | _, _ => None
  end.
Proof.
  induction l as [|a l IH]; intros [|b l'] [|i]; simpl; auto.
  - now destruct (nth_error l i).
Qed.

Lemma In_zip_with (f : A -> B -> C) (l : list A) : forall (l' : list B) c,
  In c (zip_with f l l') -> exists a b, In a l /\ In b l' /\ c = f a b.
Proof.
  induction l as [|a l IH]; intros [|b l'] c; simpl; try tauto.
  intros [<-|H].
  - exists a, b. auto.
  - destruct (IH _ _ H) as (a' & b' & Ha & Hb & E).
    exists a', b'. auto.
Qed.

End Broadcast.

Lemma zip_with_map {A A' B B' C} (f : A' -> B' -> C) (g : A -> A')
  (h : B -> B') (l : list A) : forall (l' : list B),
  zip_with f (map g l) (map h l') = zip_with (fun a b => f (g a) (h b)) l l'.
Proof.
  induction l as [|a l IH]; intros [|b l']; simpl; auto.
  now rewrite IH.
Qed.

Lemma map_zip_with {A B C D} (f : A -> B -> C) (g : C -> D) (l : list A) :
  forall (l' : list B),
  map g (zip_with f l l') = zip_with (fun a b => g (f a b)) l l'.
Proof.
  induction l as [|a l IH]; intros [|b l']; simpl; auto.
  now rewrite IH.
Qed.

Lemma zip_with_diag {A C} (f : A -> A -> C) (l : list A) :
  zip_with f l l = map (fun a => f a a) l.
Proof. induction l as [|a l IH]; simpl; [reflexivity | now rewrite IH]. Qed.

(* ================================================================== *)
(** * The cosine-alignment loss *)

Section BYOL.
Import BYOL_TT_Loss.
Local Open Scope R_scope.

Lemma eps_pos : 0 < eps.
Proof. unfold eps. apply Rinv_0_lt_compat. apply pow_lt. lra. Qed.

Lemma norm2_nonneg r : 0 <= norm2 r.
Proof. apply sqrt_pos. Qed.


(** The largest float is at least 128. *)
Lemma float_max_ge : 128 <= float_max.
Proof.
  unfold float_max.
  assert (H1 : 1 <= 2 - / 2 ^ 23).
  { assert (/ 2 ^ 23 <= / 1)
      by (apply Rinv_le_contravar; [lra | apply pow_R1_Rle; lra]).
    rewrite Rinv_1 in *. lra. }
  assert (H2 : 128 <= 2 ^ 127).
  { replace (2 ^ 127) with (2 ^ 7 * 2 ^ 120)
      by (rewrite <- pow_add; reflexivity).
    assert (1 <= 2 ^ 120) by (apply pow_R1_Rle; lra).
    replace (2 ^ 7) with 128 by (simpl; ring). nra. }
  nra.
Qed.

(** A row in the range of the floats is divided by [max(norm, eps)]. *)
Lemma normalize_row_in_range r :
  sumsq r <= float_max ->
  normalize_row r = map (fun v => v / Rmax (norm2 r) eps) r.
Proof.
  intros H. unfold normalize_row, Rleb. fold (sumsq r).
  destruct (Rle_dec (sumsq r) float_max); [reflexivity | contradiction].
Qed.

(** A row out of the range of the floats becomes a row of zeros. *)
Lemma normalize_row_overflow r :
  float_max < sumsq r -> normalize_row r = map (fun _ => 0) r.
Proof.
  intros H. unfold normalize_row, Rleb. fold (sumsq r).
  destruct (Rle_dec (sumsq r) float_max); [lra | reflexivity].
Qed.

Lemma length_normalize_row r : length (normalize_row r) = length r.
Proof.
  unfold normalize_row.
  destruct (Rleb _ float_max); apply length_map.
Qed.

Lemma dot_zeros_l {T} (a : list T) : forall b,
  dot (map (fun _ => 0) a) b = 0.
Proof.
  unfold dot. induction a as [|x a IH]; intros [|y b]; try reflexivity.
  cbn [map zip_with sum_list fold_right].
  fold (sum_list (zip_with Rmult (map (fun _ => 0) a) b)).
  rewrite IH. ring.
Qed.


(** The loss of one pair of rows. *)
Definition pair_loss (r r' : list R) : R :=
  2 - 2 * dot (normalize_row r) (normalize_row r').

Lemma wf_normalize x : wf x -> wf (normalize x).
Proof.
  intros [H1 H2]; split; simpl.
  - now rewrite length_map.
  - apply Forall_map. eapply Forall_impl; [|exact H2].
    intros r Hr. now rewrite length_normalize_row.
Qed.

(** [forward] on two batches of the same shape. *)
Lemma forward_same_shape self x x_pair :
  wf x -> wf x_pair -> shape x = shape x_pair ->
  forward self x x_pair = inr (zip_with pair_loss (rows x) (rows x_pair)).
Proof.
  intros Hx Hp Hs. unfold forward.
  rewrite zip2d_same_shape;
    [| now apply wf_normalize | now apply wf_normalize | exact Hs].
  cbn [bind ret rows normalize]. f_equal.
  rewrite map_zip_with, zip_with_map. reflexivity.
Qed.

Lemma normalized_dot r r' :
  sumsq r <= float_max -> sumsq r' <= float_max ->
  dot (normalize_row r) (normalize_row r') =
  dot r r' / (Rmax (norm2 r) eps * Rmax (norm2 r') eps).
Proof.
  intros H H'.
  rewrite (normalize_row_in_range r H), (normalize_row_in_range r' H').
  apply dot_scale.
Qed.




End BYOL.

(** C7. The result of [BYOL_TT_Loss.forward] does not depend on the
    similarity function given to the constructor: two instances built
    from any two functions return the same value on the same inputs. *)
Theorem byol_ignores_sim_func
  (f g : Tensor.t R -> Tensor.t R -> Tensor.t R) (x x_pair : Tensor.t R) :
  BYOL_TT_Loss.forward (BYOL_TT_Loss.init f) x x_pair =
  BYOL_TT_Loss.forward (BYOL_TT_Loss.init g) x x_pair.
Proof. reflexivity. Qed.


Definition x34 : Tensor.t R := Tensor.mk 1 2 [[3; 4]].

Lemma wf_x34 : wf x34.
Proof. split; [reflexivity | repeat constructor]. Qed.

Lemma norm2_34 : BYOL_TT_Loss.norm2 [3; 4]%R = 5%R.
Proof.
  unfold BYOL_TT_Loss.norm2. cbn [map sum_list fold_right].
  replace (3 * 3 + (4 * 4 + 0))%R with (5 * 5)%R by ring.
  apply sqrt_square. lra.
Qed.

Lemma sumsq_34 : sumsq [3; 4]%R = 25%R.
Proof. unfold sumsq. cbn [map sum_list fold_right]. ring. Qed.

Lemma eps_le_1 : (BYOL_TT_Loss.eps <= 1)%R.
Proof.
  unfold BYOL_TT_Loss.eps. apply Rle_trans with (/ 1)%R;
    [|rewrite Rinv_1; lra].
  apply Rinv_le_contravar; [lra|]. apply pow_R1_Rle. lra.
Qed.




(** A batch whose only row has a sum of squares out of the range of the
    floats. *)
Definition huge : Tensor.t R := Tensor.mk 1 2 [[10 ^ 30; 10 ^ 30]].

Lemma float_max_lt : (BYOL_TT_Loss.float_max < 10 ^ 60)%R.
Proof.
  unfold BYOL_TT_Loss.float_max.
  assert (H0 : (0 < / 2 ^ 23)%R) by (apply Rinv_0_lt_compat, pow_lt; lra).
  assert (H1 : (0 < 2 ^ 127)%R) by (apply pow_lt; lra).
  assert (H2 : (2 * 2 ^ 127 < 10 ^ 60)%R).
  { change (2 * 2 ^ 127)%R with (2 ^ 128)%R.
    rewrite !pow_IZR. apply IZR_lt. reflexivity. }
  nra.
Qed.

(** On [huge] given twice, the norm is [inf], the normalized rows are
    rows of zeros and the loss is 2. *)
Example byol_huge_row :
  BYOL_TT_Loss.forward (BYOL_TT_Loss.init (fun a _ => a)) huge huge =
  inr [2%R].
Proof.
  assert (Hw : wf huge) by (split; [reflexivity | repeat constructor]).
  rewrite forward_same_shape by (exact Hw || reflexivity).
  cbn [rows huge zip_with]. do 2 f_equal.
  assert (Hm : (BYOL_TT_Loss.float_max < sumsq [10 ^ 30; 10 ^ 30])%R).
  { unfold sumsq. cbn [map sum_list fold_right].
    replace (10 ^ 30 * 10 ^ 30)%R with (10 ^ 60)%R
      by (rewrite <- pow_add; reflexivity).
    pose proof float_max_lt. assert (0 < 10 ^ 60)%R by (apply pow_lt; lra).
    lra. }
  unfold pair_loss. rewrite (normalize_row_overflow _ Hm), dot_zeros_l. ring.
Qed.

(* ================================================================== *)
(** * The covariance matrix and its penalty *)

Section Covariance.
Import VICReg_TT_Loss.
Local Open Scope R_scope.

Lemma sum_list_flat_map {T} (h : T -> list R) (l : list T) :
  sum_list (flat_map h l) = sum_list (map (fun a => sum_list (h a)) l).
Proof.
  induction l as [|a l IH]; simpl; [reflexivity|].
  now rewrite sum_list_app, IH.
Qed.

Lemma map_over_flat_map {T U V} (f : U -> V) (h : T -> list U) (l : list T) :
  map f (flat_map h l) = flat_map (fun a => map f (h a)) l.
Proof.
  induction l as [|a l IH]; simpl; [reflexivity|].
  now rewrite map_app, IH.
Qed.

Lemma nth_error_seq0 n i : (i < n)%nat -> nth_error (seq 0 n) i = Some i.
Proof.
  intros H. rewrite (nth_error_nth' _ 0%nat) by (now rewrite length_seq).
  now rewrite seq_nth.
Qed.

Lemma get_tabulate {T} (g : nat -> nat -> T) r c i j :
  (i < r)%nat -> (j < c)%nat -> get (tabulate g r c) i j = Some (g i j).
Proof.
  intros Hi Hj. unfold get, tabulate; cbn [rows].
  rewrite nth_error_map, (nth_error_seq0 Hi). cbn [option_map].
  rewrite nth_error_map, (nth_error_seq0 Hj). reflexivity.
Qed.

Lemma wf_tabulate {T} (g : nat -> nat -> T) r c : wf (tabulate g r c).
Proof.
  split; cbn [rows nrows ncols tabulate].
  - now rewrite length_map, length_seq.
  - apply Forall_map, Forall_forall. intros i _.
    now rewrite length_map, length_seq.
Qed.

Lemma off_entries_tabulate {T} (g : nat -> nat -> T) d :
  off_entries (tabulate g d d) =
  flat_map (fun i =>
    flat_map (fun j => if (i =? j)%nat then [] else [g i j]) (seq 0 d))
    (seq 0 d).
Proof.
  unfold off_entries. cbn [nrows ncols tabulate].
  apply flat_map_ext_In. intros i Hi. apply in_seq in Hi.
  apply flat_map_ext_In. intros j Hj. apply in_seq in Hj.
  destruct (i =? j)%nat; [reflexivity|].
  rewrite get_tabulate by lia. reflexivity.
Qed.

(** The entry [(j, k)] of [(x.T @ x) / (config.BATCH_SIZE - 1)]. *)
Definition cov_entry (cfg : Config.t) (x : Tensor.t R) (j k : nat) : R :=
  dot (column j (rows x)) (column k (rows x))
  / (INR (Config.BATCH_SIZE cfg) - 1).

Lemma cov_tabulate cfg x :
  cov cfg x = inr (tabulate (cov_entry cfg x) (ncols x) (ncols x)).
Proof.
  unfold cov, matmul, transpose. cbn [ncols nrows rows].
  rewrite Nat.eqb_refl. unfold bind, ret, map2d, tabulate.
  cbn [ncols nrows rows]. do 2 f_equal.
  rewrite !map_map. apply map_ext. intros j.
  rewrite map_map. reflexivity.
Qed.

Lemma cov_penalty_tabulate cfg (g : nat -> nat -> R) d :
  cov_penalty cfg (tabulate g d d) =
  inr (off_sum d (fun j k => g j k ^ 2) / INR (Config.HIDDEN_DIM cfg)).
Proof.
  destruct d as [|d]; [reflexivity|].
  destruct (@off_diagonal_row_major R (S d) (tabulate g (S d) (S d)))
    as [E _]; [lia | apply wf_tabulate | reflexivity |].
  unfold cov_penalty. rewrite E. unfold bind, ret. do 2 f_equal.
  rewrite off_entries_tabulate, map_over_flat_map, sum_list_flat_map.
  unfold off_sum. f_equal. apply map_ext. intros j.
  rewrite map_over_flat_map, sum_list_flat_map.
  f_equal. apply map_ext. intros k.
  destruct (j =? k)%nat; simpl; ring.
Qed.

Lemma column_cons {T} j (r : list T) rs :
  column j (r :: rs) =
  match nth_error r j with
  | Some v => v :: column j rs
  | None => column j rs
  end.
Proof. unfold column. cbn [flat_map]. now destruct (nth_error r j). Qed.

(** On well-formed rows the inner product of two columns is the sum, over
    the rows, of the products of their two entries. *)
Lemma dot_columns (rs : list (list R)) d j k :
  Forall (fun r => length r = d) rs -> (j < d)%nat -> (k < d)%nat ->
  dot (column j rs) (column k rs) =
  sum_list (map (fun r => nth j r 0 * nth k r 0) rs).
Proof.
  intros H Hj Hk. induction H as [|r rs Hr Hrs IH]; [reflexivity|].
  rewrite !column_cons.
  rewrite (nth_error_nth' r 0) by lia.
  rewrite (nth_error_nth' r 0 (n := k)) by lia.
  unfold dot in *. cbn [zip_with map sum_list fold_right].
  fold (sum_list (zip_with Rmult (column j rs) (column k rs))).
  fold (sum_list (map (fun r0 => nth j r0 0 * nth k r0 0) rs)).
  now rewrite IH.
Qed.

(** The penalty of the covariance matrix that the code builds is the
    off-diagonal sum of squares of the Gram entries over
    [config.BATCH_SIZE - 1], divided by [config.HIDDEN_DIM]. *)
Lemma cov_penalty_cov cfg x :
  wf x ->
  cov_penalty cfg (tabulate (cov_entry cfg x) (ncols x) (ncols x)) =
  inr (cov_penalty_spec (INR (Config.BATCH_SIZE cfg))
                        (INR (Config.HIDDEN_DIM cfg)) x).
Proof.
  intros [_ Hrows]. rewrite cov_penalty_tabulate.
  unfold cov_penalty_spec, off_sum. do 3 f_equal. apply map_ext_in. intros j Hj. apply in_seq in Hj.
  f_equal. apply map_ext_in. intros k Hk. apply in_seq in Hk.
  destruct (j =? k)%nat; [reflexivity|].
  unfold cov_entry, gram_entry.
  rewrite (dot_columns Hrows) by lia. reflexivity.
Qed.

Lemma cov_loss_value cfg x y :
  wf x -> wf y ->
  cov_loss cfg x y =
  inr (cov_penalty_spec (INR (Config.BATCH_SIZE cfg))
                        (INR (Config.HIDDEN_DIM cfg)) x +
       cov_penalty_spec (INR (Config.BATCH_SIZE cfg))
                        (INR (Config.HIDDEN_DIM cfg)) y).
Proof.
  intros Hx Hy. unfold cov_loss. rewrite !cov_tabulate.
  cbn [bind]. rewrite (cov_penalty_cov cfg Hx), (cov_penalty_cov cfg Hy).
  reflexivity.
Qed.

End Covariance.

(* ================================================================== *)
(** * The terms of the variance-invariance-covariance loss *)

Section VICRegTerms.
Import VICReg_TT_Loss.
Local Open Scope R_scope.

Lemma length_mean0 x : length (mean0 x) = ncols x.
Proof. unfold mean0. now rewrite length_map, length_seq. Qed.

Lemma wf_center x : wf x -> wf (center x).
Proof.
  intros [H1 H2]. split; cbn [center sub_rowvec rows nrows ncols].
  - now rewrite length_map.
  - apply Forall_map. eapply Forall_impl; [|exact H2].
    intros r Hr. cbn beta.
    rewrite length_zip_with, Hr, length_mean0. apply Nat.min_id.
Qed.

(** Whether [F.mse_loss] raises depends on the two shapes only. *)
Lemma mse_loss_error_shape x y x' y' e :
  shape x = shape x' -> shape y = shape y' ->
  mse_loss x y = inl e -> mse_loss x' y' = inl e.
Proof.
  unfold mse_loss, zip2d, shape. intros Hx Hy.
  injection Hx as E1 E2. injection Hy as E3 E4.
  rewrite E1, E2, E3, E4.
  destruct (broadcast_dim (nrows x') (nrows y'));
    destruct (broadcast_dim (ncols x') (ncols y'));
    cbn; intros H; try discriminate; exact H.
Qed.

Lemma mse_loss_same_shape x y :
  wf x -> wf y -> shape x = shape y -> exists v, mse_loss x y = inr v.
Proof.
  intros Hx Hy Hs. unfold mse_loss.
  rewrite (zip2d_same_shape _ Hx Hy Hs). cbn [bind ret]. eauto.
Qed.

(** The covariance term, once [F.mse_loss] has returned. *)
Lemma cov_term_value cfg x y :
  wf x -> wf y ->
  cov_term cfg x y =
  match mse_loss x y with
  | inl e => inl e
  | inr _ =>
      inr (cov_penalty_spec (INR (Config.BATCH_SIZE cfg))
                            (INR (Config.HIDDEN_DIM cfg)) (center x) +
           cov_penalty_spec (INR (Config.BATCH_SIZE cfg))
                            (INR (Config.HIDDEN_DIM cfg)) (center y))
  end.
Proof.
  intros Hx Hy. unfold cov_term, terms.
  destruct (mse_loss x y) as [e|v]; cbn [bind]; [reflexivity|].
  rewrite cov_loss_value by (apply wf_center; assumption). reflexivity.
Qed.

Lemma gather_identity {T} (rs : list T) : gather rs (seq 0 (length rs)) = rs.
Proof.
  unfold gather. rewrite flat_map_nth_error_seq. apply firstn_all.
Qed.

Lemma gather_perm {T} (rs : list T) pi :
  Permutation pi (seq 0 (length rs)) -> Permutation (gather rs pi) rs.
Proof.
  intros H.
  pose proof (Permutation_flat_map
    (fun j => match nth_error rs j with Some v => [v] | None => [] end) H)
    as P.
  fold (gather rs pi) in P. fold (gather rs (seq 0 (length rs))) in P.
  now rewrite gather_identity in P.
Qed.

Lemma column_perm {T} j (rs rs' : list (list T)) :
  Permutation rs rs' -> Permutation (column j rs) (column j rs').
Proof. intros H. unfold column. now apply Permutation_flat_map. Qed.

Lemma mean_perm l l' : Permutation l l' -> mean l = mean l'.
Proof.
  intros H. unfold mean.
  now rewrite (sum_list_perm H), (Permutation_length H).
Qed.

Lemma wf_permute_rows pi x :
  wf x -> Permutation pi (seq 0 (nrows x)) -> wf (permute_rows pi x).
Proof.
  intros [H1 H2] Hp. rewrite <- H1 in Hp.
  pose proof (gather_perm _ Hp) as P.
  split; cbn [permute_rows rows nrows ncols].
  - rewrite (Permutation_length P), (Permutation_length Hp).
    now rewrite length_seq.
  - rewrite Forall_forall in *. intros r Hr. apply H2.
    eapply Permutation_in; [exact P | exact Hr].
Qed.

Lemma shape_permute_rows pi x :
  Permutation pi (seq 0 (nrows x)) -> shape (permute_rows pi x) = shape x.
Proof.
  intros Hp. unfold shape; cbn [permute_rows nrows ncols].
  now rewrite (Permutation_length Hp), length_seq.
Qed.

Lemma mean0_permute_rows pi x :
  wf x -> Permutation pi (seq 0 (nrows x)) ->
  mean0 (permute_rows pi x) = mean0 x.
Proof.
  intros [H1 _] Hp. rewrite <- H1 in Hp.
  unfold mean0; cbn [permute_rows rows ncols].
  apply map_ext. intros j.
  apply mean_perm, column_perm, gather_perm, Hp.
Qed.

Lemma rows_center_permute_rows pi x :
  wf x -> Permutation pi (seq 0 (nrows x)) ->
  Permutation (rows (center (permute_rows pi x))) (rows (center x)).
Proof.
  intros Hx Hp. unfold center. rewrite (mean0_permute_rows Hx Hp).
  cbn [sub_rowvec rows permute_rows].
  apply Permutation_map, gather_perm.
  destruct Hx as [-> _]. exact Hp.
Qed.

Lemma cov_penalty_spec_perm n d a b :
  ncols a = ncols b -> Permutation (rows a) (rows b) ->
  cov_penalty_spec n d a = cov_penalty_spec n d b.
Proof.
  intros Hc Hp. unfold cov_penalty_spec, off_sum, gram_entry.
  rewrite Hc. do 2 f_equal. apply map_ext. intros j.
  f_equal. apply map_ext. intros k.
  destruct (j =? k)%nat; [reflexivity|]. do 2 f_equal.
  apply sum_list_perm, Permutation_map, Hp.
Qed.

End VICRegTerms.

(** C6. The covariance term of [VICReg_TT_Loss.forward] does not change
    when the rows of both batches are reordered by the same permutation
    [pi] of the row indices; and on two batches with as many columns it is
    a value, not an exception. *)
Theorem cov_term_permutation_invariant (cfg : Config.t) (pi : list nat)
  (n : nat) (x y : Tensor.t R) :
  wf x -> wf y -> nrows x = n -> nrows y = n ->
  Permutation pi (seq 0 n) ->
  VICReg_TT_Loss.cov_term cfg (VICReg_TT_Loss.permute_rows pi x)
                              (VICReg_TT_Loss.permute_rows pi y) =
  VICReg_TT_Loss.cov_term cfg x y /\
  (ncols x = ncols y -> exists c, VICReg_TT_Loss.cov_term cfg x y = inr c).
Proof.
  intros Hx Hy Hnx Hny Hp.
  assert (Hpx : Permutation pi (seq 0 (nrows x))) by now rewrite Hnx.
  assert (Hpy : Permutation pi (seq 0 (nrows y))) by now rewrite Hny.
  pose proof (wf_permute_rows Hx Hpx) as Hwx.
  pose proof (wf_permute_rows Hy Hpy) as Hwy.
  pose proof (shape_permute_rows x Hpx) as Hsx.
  pose proof (shape_permute_rows y Hpy) as Hsy.
  rewrite (cov_term_value cfg Hwx Hwy), (cov_term_value cfg Hx Hy).
  split.
  - destruct (VICReg_TT_Loss.mse_loss x y) as [e|v] eqn:E.
    + now rewrite (mse_loss_error_shape (eq_sym Hsx) (eq_sym Hsy) E).
    + destruct (VICReg_TT_Loss.mse_loss (VICReg_TT_Loss.permute_rows pi x)
                  (VICReg_TT_Loss.permute_rows pi y)) as [e'|v'] eqn:E'.
      * rewrite (mse_loss_error_shape Hsx Hsy E') in E. discriminate.
      * f_equal. f_equal; apply cov_penalty_spec_perm;
          auto using rows_center_permute_rows.
  - intros Hc.
    destruct (@mse_loss_same_shape x y Hx Hy) as [v ->]; [|eauto].
    unfold shape. congruence.
Qed.

Definition cfg32 : Config.t := Config.mk None 3 2 25 25 1.

Definition xpm : Tensor.t R := Tensor.mk 2 2 [[1; 1]; [-1; -1]].

Lemma wf_xpm : wf xpm.
Proof. split; [reflexivity | repeat constructor]. Qed.

Lemma cov_penalty_spec_xpm_3 :
  VICReg_TT_Loss.cov_penalty_spec (INR 3) (INR 2) (VICReg_TT_Loss.center xpm)
  = 1.
Proof.
  unfold VICReg_TT_Loss.cov_penalty_spec, VICReg_TT_Loss.off_sum,
    VICReg_TT_Loss.gram_entry, VICReg_TT_Loss.center,
    VICReg_TT_Loss.sub_rowvec, VICReg_TT_Loss.mean0, mean, column.
  cbn. field.
Qed.

Lemma cov_penalty_spec_xpm_2 :
  VICReg_TT_Loss.cov_penalty_spec (INR 2) (INR 2) (VICReg_TT_Loss.center xpm)
  = 4.
Proof.
  unfold VICReg_TT_Loss.cov_penalty_spec, VICReg_TT_Loss.off_sum,
    VICReg_TT_Loss.gram_entry, VICReg_TT_Loss.center,
    VICReg_TT_Loss.sub_rowvec, VICReg_TT_Loss.mean0, mean, column.
  cbn. field.
Qed.

Lemma cov_term_xpm :
  VICReg_TT_Loss.cov_term cfg32 xpm xpm = inr (1 + 1) /\
  VICReg_TT_Loss.cov_loss_spec (VICReg_TT_Loss.center xpm)
                               (VICReg_TT_Loss.center xpm) = 4 + 4.
Proof.
  split.
  - rewrite (cov_term_value cfg32 wf_xpm wf_xpm).
    destruct (mse_loss_same_shape wf_xpm wf_xpm eq_refl) as [v ->].
    change (Config.BATCH_SIZE cfg32) with 3%nat.
    change (Config.HIDDEN_DIM cfg32) with 2%nat.
    now rewrite cov_penalty_spec_xpm_3.
  - unfold VICReg_TT_Loss.cov_loss_spec.
    change (nrows (VICReg_TT_Loss.center xpm)) with 2%nat.
    change (ncols (VICReg_TT_Loss.center xpm)) with 2%nat.
    now rewrite cov_penalty_spec_xpm_2.
Qed.

Lemma cov_term_permutation_invariant_witness :
  VICReg_TT_Loss.cov_term cfg32 (VICReg_TT_Loss.permute_rows [1; 0]%nat xpm)
                                (VICReg_TT_Loss.permute_rows [1; 0]%nat xpm) =
  VICReg_TT_Loss.cov_term cfg32 xpm xpm /\
  (ncols xpm = ncols xpm ->
   exists c, VICReg_TT_Loss.cov_term cfg32 xpm xpm = inr c).
Proof.
  apply (@cov_term_permutation_invariant cfg32 [1; 0]%nat 2 xpm xpm
           wf_xpm wf_xpm eq_refl eq_refl).
  apply perm_swap.
Defined.

(** C10. For two well-formed batches of shape [(n, d)], the covariance
    term of [VICReg_TT_Loss.forward] is the sum, over the two centred
    batches, of the off-diagonal sum of the squares of the Gram entries
    divided by [config.BATCH_SIZE - 1], divided by [config.HIDDEN_DIM],
    whatever [n] and [d] are. It is the term of the formula, which divides
    by [n - 1] and by [d], when [n = config.BATCH_SIZE] and
    [d = config.HIDDEN_DIM]; and there is a batch with another number of
    rows on which the two differ. *)
Theorem cov_term_uses_config (cfg : Config.t) (n d : nat)
  (x y : Tensor.t R) :
  wf x -> wf y -> shape x = (n, d) -> shape y = (n, d) ->
  VICReg_TT_Loss.cov_term cfg x y =
    inr (VICReg_TT_Loss.cov_penalty_spec
           (INR (Config.BATCH_SIZE cfg)) (INR (Config.HIDDEN_DIM cfg))
           (VICReg_TT_Loss.center x) +
         VICReg_TT_Loss.cov_penalty_spec
           (INR (Config.BATCH_SIZE cfg)) (INR (Config.HIDDEN_DIM cfg))
           (VICReg_TT_Loss.center y)) /\
  (n = Config.BATCH_SIZE cfg -> d = Config.HIDDEN_DIM cfg ->
   VICReg_TT_Loss.cov_term cfg x y =
     inr (VICReg_TT_Loss.cov_loss_spec (VICReg_TT_Loss.center x)
                                       (VICReg_TT_Loss.center y))) /\
  (exists cfg' x' c,
     wf x' /\ nrows x' <> Config.BATCH_SIZE cfg' /\
     VICReg_TT_Loss.cov_term cfg' x' x' = inr c /\
     c <> VICReg_TT_Loss.cov_loss_spec (VICReg_TT_Loss.center x')
                                       (VICReg_TT_Loss.center x')).
Proof.
  intros Hx Hy Hsx Hsy.
  assert (E : VICReg_TT_Loss.cov_term cfg x y =
    inr (VICReg_TT_Loss.cov_penalty_spec
           (INR (Config.BATCH_SIZE cfg)) (INR (Config.HIDDEN_DIM cfg))
           (VICReg_TT_Loss.center x) +
         VICReg_TT_Loss.cov_penalty_spec
           (INR (Config.BATCH_SIZE cfg)) (INR (Config.HIDDEN_DIM cfg))
           (VICReg_TT_Loss.center y))).
  { rewrite (cov_term_value cfg Hx Hy).
    destruct (@mse_loss_same_shape x y Hx Hy) as [v ->];
      [congruence | reflexivity]. }
  split; [exact E|]. split.
  - intros Hn Hd. rewrite E. unfold VICReg_TT_Loss.cov_loss_spec.
    injection Hsx as Hnx Hdx. injection Hsy as Hny Hdy.
    change (nrows (VICReg_TT_Loss.center x)) with (nrows x).
    change (ncols (VICReg_TT_Loss.center x)) with (ncols x).
    change (nrows (VICReg_TT_Loss.center y)) with (nrows y).
    change (ncols (VICReg_TT_Loss.center y)) with (ncols y).
    rewrite Hnx, Hdx, Hny, Hdy, Hn, Hd. reflexivity.
  - exists cfg32, xpm, (1 + 1).
    destruct cov_term_xpm as [E1 E2].
    split; [exact wf_xpm|]. split; [discriminate|].
    split; [exact E1|]. rewrite E2. lra.
Qed.

Lemma cov_term_uses_config_witness :
  VICReg_TT_Loss.cov_term cfg32 xpm xpm =
    inr (VICReg_TT_Loss.cov_penalty_spec
           (INR (Config.BATCH_SIZE cfg32)) (INR (Config.HIDDEN_DIM cfg32))
           (VICReg_TT_Loss.center xpm) +
         VICReg_TT_Loss.cov_penalty_spec
           (INR (Config.BATCH_SIZE cfg32)) (INR (Config.HIDDEN_DIM cfg32))
           (VICReg_TT_Loss.center xpm)).
Proof.
  exact (proj1 (@cov_term_uses_config cfg32 2 2 xpm xpm
                  wf_xpm wf_xpm eq_refl eq_refl)).
Defined.

(* ================================================================== *)
(** * The loss of an all-zeros batch *)

Section Zeros.
Import VICReg_TT_Loss.
Local Open Scope R_scope.

(** [torch.zeros(n, d)] *)
Definition zeros (n d : nat) : Tensor.t R := full n d 0.

Lemma sum_list_repeat c n : sum_list (repeat c n) = INR n * c.
Proof.
  induction n as [|n IH]; [simpl; lra|].
  rewrite S_INR. cbn [repeat]. change (sum_list (c :: repeat c n))
    with (c + sum_list (repeat c n)). rewrite IH. lra.
Qed.

Lemma mean_repeat c n : (1 <= n)%nat -> mean (repeat c n) = c.
Proof.
  intros Hn. unfold mean. rewrite sum_list_repeat, repeat_length.
  field. apply not_0_INR. lia.
Qed.

Lemma mean_zeros n : mean (repeat 0 n) = 0.
Proof. unfold mean. rewrite sum_list_repeat. unfold Rdiv. ring. Qed.

Lemma column_zeros n d j :
  (j < d)%nat -> column j (repeat (repeat 0 d) n) = repeat 0 n.
Proof.
  intros Hj. induction n as [|n IH]; [reflexivity|].
  cbn [repeat]. rewrite column_cons.
  rewrite (nth_error_nth' (repeat 0 d) 0) by (now rewrite repeat_length).
  now rewrite nth_repeat, IH.
Qed.

Lemma map_seq_const {T} (f : nat -> T) c d :
  (forall j, (j < d)%nat -> f j = c) -> map f (seq 0 d) = repeat c d.
Proof.
  intros H. transitivity (map (fun _ => c) (seq 0 d)).
  - apply map_ext_in. intros j Hj. apply in_seq in Hj. apply H. lia.
  - now rewrite map_const, length_seq.
Qed.

Lemma mean0_zeros n d : mean0 (zeros n d) = repeat 0 d.
Proof.
  unfold mean0. cbn [zeros full rows ncols].
  apply map_seq_const. intros j Hj.
  rewrite column_zeros by exact Hj. apply mean_zeros.
Qed.

Lemma zip_minus_zeros d :
  zip_with Rminus (repeat 0 d) (repeat 0 d) = repeat 0 d.
Proof.
  induction d as [|d IH]; [reflexivity|].
  cbn [repeat zip_with]. rewrite IH. f_equal. ring.
Qed.

(** Centring a batch of zeros leaves it as it is. *)
Lemma center_zeros n d : center (zeros n d) = zeros n d.
Proof.
  unfold center, sub_rowvec. rewrite mean0_zeros.
  cbn [zeros full rows nrows ncols]. f_equal.
  now rewrite map_repeat, zip_minus_zeros.
Qed.

Lemma var_zeros n : var (repeat 0 n) = 0.
Proof.
  unfold var. rewrite sum_list_zero; [unfold Rdiv; ring|].
  intros v Hv. apply in_map_iff in Hv as (w & <- & Hw).
  apply repeat_spec in Hw. subst w. rewrite mean_zeros. ring.
Qed.

Lemma var0_zeros n d : var0 (zeros n d) = repeat 0 d.
Proof.
  unfold var0. cbn [zeros full rows ncols].
  apply map_seq_const. intros j Hj.
  rewrite column_zeros by exact Hj. apply var_zeros.
Qed.

(** The floor [0.0001] under the square root gives [0.01]. *)
Lemma sqrt_floor : sqrt (0 + / 10 ^ 4) = / 100.
Proof.
  replace (0 + / 10 ^ 4) with (/ 100 * / 100) by field.
  apply sqrt_square. lra.
Qed.

Lemma std_zeros n d : std (zeros n d) = repeat (/ 100) d.
Proof. unfold std. now rewrite var0_zeros, map_repeat, sqrt_floor. Qed.

Lemma std_loss_zeros n d :
  (1 <= d)%nat -> std_loss (zeros n d) (zeros n d) = 99 / 100.
Proof.
  intros Hd. unfold std_loss. rewrite std_zeros, map_repeat.
  rewrite mean_repeat by exact Hd.
  unfold relu. rewrite Rmax_right by lra. lra.
Qed.

Lemma gram_entry_zeros n d j k : gram_entry (zeros n d) j k = 0.
Proof.
  unfold gram_entry. apply sum_list_zero. intros v Hv.
  apply in_map_iff in Hv as (r & <- & Hr).
  cbn [zeros full rows] in Hr. apply repeat_spec in Hr. subst r.
  rewrite !nth_repeat. ring.
Qed.

Lemma off_sum_zero d f : (forall j k, f j k = 0) -> off_sum d f = 0.
Proof.
  intros H. unfold off_sum. apply sum_list_zero. intros v Hv.
  apply in_map_iff in Hv as (j & <- & _).
  apply sum_list_zero. intros w Hw.
  apply in_map_iff in Hw as (k & <- & _).
  destruct (j =? k)%nat; [reflexivity | apply H].
Qed.

Lemma cov_penalty_spec_zeros b h n d : cov_penalty_spec b h (zeros n d) = 0.
Proof.
  unfold cov_penalty_spec. rewrite off_sum_zero; [unfold Rdiv; ring|].
  intros j k. rewrite gram_entry_zeros. unfold Rdiv. ring.
Qed.

(** [F.mse_loss] of a batch and itself is 0. *)
Lemma mse_loss_self x : wf x -> mse_loss x x = inr 0.
Proof.
  intros Hx. unfold mse_loss.
  rewrite (zip2d_same_shape _ Hx Hx eq_refl). unfold bind, ret.
  apply f_equal.
  unfold mean. rewrite sum_list_zero; [unfold Rdiv; ring|].
  intros v Hv. unfold flatten in Hv. cbn [rows] in Hv.
  apply in_concat in Hv as (r & Hr & Hv).
  rewrite zip_with_diag in Hr. apply in_map_iff in Hr as (r0 & <- & _).
  rewrite zip_with_diag in Hv. apply in_map_iff in Hv as (a & <- & _).
  ring.
Qed.

Lemma terms_zeros cfg n d :
  (1 <= d)%nat ->
  terms cfg (zeros n d) (zeros n d) = inr (0, 99 / 100, 0).
Proof.
  intros Hd. unfold terms.
  rewrite mse_loss_self by apply wf_full. cbn [bind].
  rewrite center_zeros.
  rewrite cov_loss_value by apply wf_full.
  rewrite cov_penalty_spec_zeros, (std_loss_zeros n Hd).
  cbn [bind ret]. now rewrite Rplus_0_l.
Qed.

Lemma forward_zeros cfg self n d :
  (1 <= d)%nat ->
  exists self',
    forward cfg self (zeros n d) (zeros n d) =
    inr (Config.VICREG_STD_COEFF cfg * (99 / 100), self').
Proof.
  intros Hd. unfold forward. rewrite (terms_zeros cfg n Hd).
  cbn [bind ret]. eexists. apply f_equal.
  apply f_equal2; [ring | reflexivity].
Qed.

End Zeros.

(** C3, as the code has it. With [config.BATCH_SIZE >= 2] (below, the
    unbiased variance of torch is not a number) and
    [config.HIDDEN_DIM >= 1], on an all-zeros batch of shape
    [(config.BATCH_SIZE, config.HIDDEN_DIM)] given as [x] and as [y], the
    invariance term is 0, the covariance term is 0, the variance term is
    [1 - sqrt 0.0001 = 0.99], and [VICReg_TT_Loss.forward] returns
    [config.VICREG_STD_COEFF * 0.99]. *)
Theorem vicreg_zeros_loss (cfg : Config.t) (self : VICReg_TT_Loss.t) :
  (2 <= Config.BATCH_SIZE cfg)%nat -> (1 <= Config.HIDDEN_DIM cfg)%nat ->
  VICReg_TT_Loss.terms cfg
    (zeros (Config.BATCH_SIZE cfg) (Config.HIDDEN_DIM cfg))
    (zeros (Config.BATCH_SIZE cfg) (Config.HIDDEN_DIM cfg)) =
    inr (0, 99 / 100, 0) /\
  exists self',
    VICReg_TT_Loss.forward cfg self
      (zeros (Config.BATCH_SIZE cfg) (Config.HIDDEN_DIM cfg))
      (zeros (Config.BATCH_SIZE cfg) (Config.HIDDEN_DIM cfg)) =
    inr (Config.VICREG_STD_COEFF cfg * (99 / 100), self').
Proof.
  intros _ Hd. split.
  - apply terms_zeros, Hd.
  - apply forward_zeros, Hd.
Qed.

Definition cfg22 : Config.t := Config.mk None 2 2 25 25 1.

Lemma vicreg_zeros_loss_witness :
  VICReg_TT_Loss.terms cfg22 (zeros 2 2) (zeros 2 2) = inr (0, 99 / 100, 0) /\
  exists self',
    VICReg_TT_Loss.forward cfg22 VICReg_TT_Loss.init (zeros 2 2) (zeros 2 2) =
    inr (25 * (99 / 100), self').
Proof.
  apply (@vicreg_zeros_loss cfg22 VICReg_TT_Loss.init);
    cbn [Config.BATCH_SIZE Config.HIDDEN_DIM cfg22]; lia.
Defined.

(** C3, as stated, fails: with [BATCH_SIZE = 2], [HIDDEN_DIM = 2] and a
    variance coefficient of 25, the variance term of the all-zeros batch
    is [0.99], which is less than 1, and the loss is [25 * 0.99], which is
    less than [25 * 1]. *)
Lemma vicreg_zeros_counterexample :
  VICReg_TT_Loss.terms cfg22 (zeros 2 2) (zeros 2 2) = inr (0, 99 / 100, 0) /\
  99 / 100 < 1 /\
  (exists self',
     VICReg_TT_Loss.forward cfg22 VICReg_TT_Loss.init (zeros 2 2) (zeros 2 2)
     = inr (25 * (99 / 100), self')) /\
  25 * (99 / 100) < 25 * 1.
Proof.
  split; [apply (@terms_zeros cfg22 2 2); lia|].
  split; [lra|]. split; [|lra].
  apply (@forward_zeros cfg22 VICReg_TT_Loss.init 2 2). lia.
Qed.

(* ================================================================== *)
(** * Diagonals, masked selection and reshaping *)

Section Selection.
Context {A : Type}.
Local Open Scope nat_scope.

Lemma chunks_concat (c : nat) (ls : list (list A)) :
  Forall (fun l => length l = c) ls ->
  chunks (length ls) c (concat ls) = ls.
Proof.
  induction 1 as [|l ls Hl Hls IH]; [reflexivity|].
  cbn [length chunks concat].
  rewrite firstn_app, skipn_app, Hl, Nat.sub_diag.
  rewrite (firstn_all2 (n := c) l) by lia.
  rewrite (skipn_all2 (n := c) l) by lia.
  cbn [firstn skipn app]. rewrite app_nil_r, IH. reflexivity.
Qed.

Lemma chunks_singletons (l : list A) :
  chunks (length l) 1 l = map (fun a => [a]) l.
Proof.
  induction l as [|a l IH]; [reflexivity|].
  cbn [length chunks map firstn skipn]. now rewrite IH.
Qed.

Lemma length_select (r : list A) : forall b,
  length r = length b ->
  length (select r b) = length (filter (fun v : bool => v) b).
Proof.
  induction r as [|a r IH]; intros [|[|] b] H; simpl in *;
    try discriminate; auto.
Qed.

Lemma select_rows_concat (rs : list (list A)) : forall bs,
  select_rows rs bs = concat (zip_with select rs bs).
Proof.
  induction rs as [|r rs IH]; intros [|b bs]; simpl; auto.
  now rewrite IH.
Qed.

(** The diagonal that starts in column [k] stops at the last row or at
    the last column, whichever comes first. *)
Lemma length_diag_from c (rs : list (list A)) : forall k,
  Forall (fun r => length r = c) rs ->
  length (diag_from k rs) = Nat.min (length rs) (c - k).
Proof.
  induction rs as [|r rs IH]; intros k H; [reflexivity|].
  pose proof (Forall_inv H) as Hr. pose proof (Forall_inv_tail H) as Hrs.
  cbn beta in Hr. cbn [diag_from length].
  destruct (nth_error r k) as [v|] eqn:E.
  - assert (k < c) by (rewrite <- Hr; apply nth_error_Some; congruence).
    cbn [length]. rewrite (IH (S k) Hrs). lia.
  - apply nth_error_None in E. cbn [length]. lia.
Qed.

Lemma nth_error_diag_from c (rs : list (list A)) : forall k i r,
  Forall (fun r => length r = c) rs ->
  nth_error rs i = Some r -> k + i < c ->
  nth_error (diag_from k rs) i = nth_error r (k + i).
Proof.
  induction rs as [|r0 rs IH]; intros k i r H Hi Hk.
  - destruct i; discriminate.
  - pose proof (Forall_inv H) as Hr. pose proof (Forall_inv_tail H) as Hrs.
    cbn beta in Hr. cbn [diag_from].
    destruct (nth_error r0 k) as [v|] eqn:E.
    + destruct i as [|i].
      * injection Hi as <-. now rewrite Nat.add_0_r, E.
      * cbn [nth_error] in *.
        rewrite (IH (S k) i r Hrs Hi) by lia.
        f_equal. lia.
    + apply nth_error_None in E. lia.
Qed.

End Selection.

(* ================================================================== *)
(** * The rows of the correlation mask *)

Section MaskRows.
Local Open Scope nat_scope.

(** A well-formed tensor is determined by its entries. *)
Lemma rows_of_entries {T} (m : Tensor.t T) r c (g : nat -> nat -> T) :
  wf m -> shape m = (r, c) ->
  (forall i j, i < r -> j < c -> get m i j = Some (g i j)) ->
  rows m = rows (tabulate g r c).
Proof.
  intros [H1 H2] Hs Hg. injection Hs as Hr Hc.
  rewrite Hr in H1. rewrite Hc in H2.
  apply nth_error_ext. intros i. cbn [tabulate rows].
  destruct (Nat.lt_ge_cases i r) as [Hi|Hi].
  - rewrite nth_error_map, (nth_error_seq0 Hi). cbn [option_map].
    destruct (nth_error (rows m) i) as [row|] eqn:E.
    + f_equal. apply nth_error_ext. intros j.
      assert (Hl : length row = c).
      { rewrite Forall_forall in H2. apply H2.
        eapply nth_error_In, E. }
      destruct (Nat.lt_ge_cases j c) as [Hj|Hj].
      * rewrite nth_error_map, (nth_error_seq0 Hj). cbn [option_map].
        specialize (Hg i j Hi Hj). unfold get in Hg. now rewrite E in Hg.
      * rewrite (proj2 (nth_error_None _ _)) by lia.
        symmetry. apply nth_error_None. rewrite length_map, length_seq. lia.
    + apply nth_error_None in E. lia.
  - rewrite (proj2 (nth_error_None _ _)) by lia.
    symmetry. apply nth_error_None. rewrite length_map, length_seq. lia.
Qed.

Lemma count_ne_out a : forall n s,
  a < s \/ s + n <= a ->
  length (filter (fun j => negb (j =? a)) (seq s n)) = n.
Proof.
  induction n as [|n IH]; intros s H; [reflexivity|].
  cbn [seq filter]. destruct (Nat.eqb_spec s a); [lia|].
  cbn [negb length]. rewrite IH by lia. reflexivity.
Qed.

Lemma count_ne a : forall n s,
  s <= a < s + n ->
  length (filter (fun j => negb (j =? a)) (seq s n)) = n - 1.
Proof.
  induction n as [|n IH]; intros s H; [lia|].
  cbn [seq filter]. destruct (Nat.eqb_spec s a) as [E|E]; cbn [negb length].
  - rewrite count_ne_out by lia. lia.
  - rewrite IH by lia. lia.
Qed.

(** The entry [(i, j)] of the mask. *)
Definition mask_entry (N i j : nat) : bool :=
  negb ((i =? j) || (j =? N + i) || (i =? N + j)).

(** Every row of the mask keeps [2 N - 2] positions. *)
Lemma count_mask_row N i :
  1 <= N -> i < 2 * N ->
  length (filter (mask_entry N i) (seq 0 (2 * N))) = 2 * N - 2.
Proof.
  intros HN Hi.
  replace (2 * N) with (N + N) by lia.
  rewrite seq_app, filter_app, length_app. cbn [Nat.add].
  destruct (Nat.lt_ge_cases i N) as [Hlt|Hge].
  - rewrite (filter_ext_in (mask_entry N i) (fun j => negb (j =? i))).
    2:{ intros j Hj. apply in_seq in Hj. unfold mask_entry.
        destruct (Nat.eqb_spec i j), (Nat.eqb_spec j (N + i)),
          (Nat.eqb_spec i (N + j)), (Nat.eqb_spec j i); simpl; auto; lia. }
    rewrite (filter_ext_in (mask_entry N i) (fun j => negb (j =? N + i))
               (seq N N)).
    2:{ intros j Hj. apply in_seq in Hj. unfold mask_entry.
        destruct (Nat.eqb_spec i j), (Nat.eqb_spec j (N + i)),
          (Nat.eqb_spec i (N + j)); simpl; auto; lia. }
    rewrite !count_ne by lia. lia.
  - rewrite (filter_ext_in (mask_entry N i) (fun j => negb (j =? i - N))).
    2:{ intros j Hj. apply in_seq in Hj. unfold mask_entry.
        destruct (Nat.eqb_spec i j), (Nat.eqb_spec j (N + i)),
          (Nat.eqb_spec i (N + j)), (Nat.eqb_spec j (i - N));
          simpl; auto; lia. }
    rewrite (filter_ext_in (mask_entry N i) (fun j => negb (j =? i))
               (seq N N)).
    2:{ intros j Hj. apply in_seq in Hj. unfold mask_entry.
        destruct (Nat.eqb_spec i j), (Nat.eqb_spec j (N + i)),
          (Nat.eqb_spec i (N + j)), (Nat.eqb_spec j i); simpl; auto; lia. }
    rewrite !count_ne by lia. lia.
Qed.

Lemma filter_true_map {T} (g : T -> bool) (l : list T) :
  length (filter (fun v : bool => v) (map g l)) = length (filter g l).
Proof.
  induction l as [|a l IH]; [reflexivity|].
  cbn [map filter]. destruct (g a); cbn [length]; now rewrite IH.
Qed.

(** The mask that [mask_correlated_samples] returns, row by row. *)
Lemma mask_rows N :
  exists mask,
    SimCLR_TT_Loss.mask_correlated_samples N = inr mask /\
    shape mask = (2 * N, 2 * N) /\ wf mask /\
    rows mask = rows (tabulate (mask_entry N) (2 * N) (2 * N)).
Proof.
  destruct (mask_entries N) as (mask & E & Hs & Hw & Hg).
  exists mask. repeat split; try assumption; try apply Hw.
  apply rows_of_entries; assumption.
Qed.

End MaskRows.

(* ================================================================== *)
(** * The pairwise-similarity loss, step by step *)

(** A similarity function gives one entry to every pair of rows. *)
Definition pairwise (f : Tensor.t R -> Tensor.t R -> Tensor.t R) : Prop :=
  forall z, wf z -> wf (f z z) /\ shape (f z z) = (nrows z, nrows z).

(** [torch.cat((x, x_pair), dim=0)] on batches with as many columns. *)
Definition cat_rows (x x_pair : Tensor.t R) : Tensor.t R :=
  Tensor.mk (nrows x + nrows x_pair) (ncols x) (rows x ++ rows x_pair).

(** The two diagonals of the positive pairs, one after the other. *)
Definition positives (N : nat) (sim : Tensor.t R) : list R :=
  diag sim (Z.of_nat N) ++ diag sim (- Z.of_nat N).

Section Positives.
Import SimCLR_TT_Loss.
Local Open Scope nat_scope.

Lemma wf_map2d {T U} (g : T -> U) (m : Tensor.t T) : wf m -> wf (map2d g m).
Proof.
  intros [H1 H2]. split; cbn [map2d rows nrows ncols].
  - now rewrite length_map.
  - apply Forall_map. eapply Forall_impl; [|exact H2].
    intros r Hr. cbn beta. now rewrite length_map.
Qed.

Lemma get_map2d {T U} (g : T -> U) (m : Tensor.t T) i j :
  get (map2d g m) i j = option_map g (get m i j).
Proof.
  unfold get, map2d; cbn [rows]. rewrite nth_error_map.
  destruct (nth_error (rows m) i) as [r|]; cbn [option_map]; [|reflexivity].
  apply nth_error_map.
Qed.

Lemma wf_cat_rows x x_pair :
  wf x -> wf x_pair -> ncols x = ncols x_pair -> wf (cat_rows x x_pair).
Proof.
  intros [H1 H2] [H3 H4] Hc. split; cbn [cat_rows rows nrows ncols].
  - rewrite length_app. congruence.
  - apply Forall_app. split; [exact H2|]. now rewrite Hc.
Qed.

(** [torch.cat] raises when the numbers of columns differ. *)
Lemma similarity_error self x x_pair :
  ncols x <> ncols x_pair -> similarity self x x_pair = inl RuntimeError.
Proof.
  intros H. unfold similarity, cat0.
  destruct (Nat.eqb_spec (ncols x) (ncols x_pair)); [contradiction|].
  reflexivity.
Qed.

Lemma similarity_value self x x_pair :
  ncols x = ncols x_pair ->
  similarity self x x_pair =
  inr (map2d (fun v => (v / temperature self)%R)
         (sim_func self (cat_rows x x_pair) (cat_rows x x_pair))).
Proof.
  intros H. unfold similarity, cat0.
  destruct (Nat.eqb_spec (ncols x) (ncols x_pair)); [|contradiction].
  reflexivity.
Qed.

Lemma wf_similarity self x x_pair :
  pairwise (sim_func self) -> wf x -> wf x_pair -> ncols x = ncols x_pair ->
  exists sim,
    similarity self x x_pair = inr sim /\ wf sim /\
    shape sim = (nrows x + nrows x_pair, nrows x + nrows x_pair).
Proof.
  intros Hf Hx Hp Hc.
  destruct (Hf _ (wf_cat_rows Hx Hp Hc)) as [Hw Hs].
  eexists. split; [apply similarity_value, Hc|]. split.
  - apply wf_map2d, Hw.
  - injection Hs as Hr Hcs. unfold shape; cbn [map2d nrows ncols].
    now rewrite Hr, Hcs.
Qed.

Lemma diag_above {T} (m : Tensor.t T) k :
  diag m (Z.of_nat k) = diag_from k (rows m).
Proof.
  unfold diag.
  replace (0 <=? Z.of_nat k)%Z with true by (symmetry; apply Z.leb_le; lia).
  now rewrite Nat2Z.id.
Qed.

Lemma diag_below {T} (m : Tensor.t T) k :
  diag m (- Z.of_nat k) = diag_from 0 (skipn k (rows m)).
Proof.
  unfold diag. destruct k as [|k]; [reflexivity|].
  replace (0 <=? - Z.of_nat (S k))%Z with false
    by (symmetry; apply Z.leb_gt; lia).
  now rewrite Z.opp_involutive, Nat2Z.id.
Qed.

Lemma Forall_after {T} (P : T -> Prop) n (l : list T) :
  Forall P l -> Forall P (skipn n l).
Proof.
  intros H. rewrite <- (firstn_skipn n l) in H.
  apply Forall_app in H. apply H.
Qed.

Lemma length_positives N M (sim : Tensor.t R) :
  wf sim -> shape sim = (M, M) -> length (positives N sim) = 2 * (M - N).
Proof.
  intros [H1 H2] Hs. injection Hs as Hr Hc.
  rewrite Hr in H1. rewrite Hc in H2.
  unfold positives. rewrite length_app, diag_above, diag_below.
  rewrite (length_diag_from N H2).
  rewrite (@length_diag_from _ M (skipn N (rows sim)) 0).
  - rewrite length_skipn, H1. lia.
  - apply Forall_after, H2.
Qed.

(** Position [i] of the two diagonals holds the similarity of row [i]
    and its partner. *)
Lemma positives_entry N (sim : Tensor.t R) i :
  wf sim -> shape sim = (2 * N, 2 * N) -> i < 2 * N ->
  nth_error (positives N sim) i = get sim i (partner N i).
Proof.
  intros [H1 H2] Hs Hi. injection Hs as Hr Hc.
  rewrite Hr in H1. rewrite Hc in H2.
  assert (Hd : length (diag_from N (rows sim)) = N)
    by (rewrite (length_diag_from N H2); lia).
  unfold positives, partner, get. rewrite diag_above, diag_below.
  destruct (Nat.ltb_spec i N) as [Hlt|Hge].
  - rewrite nth_error_app1 by lia.
    destruct (nth_error (rows sim) i) as [r|] eqn:E.
    + rewrite (nth_error_diag_from N i H2 E) by lia. f_equal. lia.
    + apply nth_error_None in E. lia.
  - rewrite nth_error_app2 by lia. rewrite Hd.
    assert (H2' : Forall (fun r => length r = 2 * N) (skipn N (rows sim)))
      by apply Forall_after, H2.
    assert (E' : nth_error (skipn N (rows sim)) (i - N) =
                 nth_error (rows sim) i)
      by (rewrite nth_error_skipn; f_equal; lia).
    destruct (nth_error (rows sim) i) as [r|] eqn:E.
    + rewrite (nth_error_diag_from 0 (i - N) H2' E') by lia. reflexivity.
    + apply nth_error_None in E. lia.
Qed.

(** [reshape(N, 1)] of the two diagonals succeeds exactly when the
    similarity tensor has [2 * batch_size] rows. *)
Lemma positive_samples_value self (sim : Tensor.t R) :
  wf sim -> shape sim = (2 * batch_size self, 2 * batch_size self) ->
  positive_samples self sim =
  inr (Tensor.mk (2 * batch_size self) 1
         (map (fun a => [a]) (positives (batch_size self) sim))).
Proof.
  intros Hw Hs. unfold positive_samples.
  fold (positives (batch_size self) sim).
  pose proof (length_positives (batch_size self) Hw Hs) as Hl.
  change 1%Z with (Z.of_nat 1). rewrite view_nonneg. unfold reshape.
  replace (length (positives (batch_size self) sim) =?
           2 * batch_size self * 1) with true
    by (symmetry; apply Nat.eqb_eq; lia).
  unfold ret. do 2 f_equal.
  replace (2 * batch_size self)
    with (length (positives (batch_size self) sim)) by lia.
  apply chunks_singletons.
Qed.

Lemma positive_samples_error self M (sim : Tensor.t R) :
  wf sim -> shape sim = (M, M) -> M <> 2 * batch_size self ->
  positive_samples self sim = inl RuntimeError.
Proof.
  intros Hw Hs HM. unfold positive_samples.
  fold (positives (batch_size self) sim).
  pose proof (length_positives (batch_size self) Hw Hs) as Hl.
  change 1%Z with (Z.of_nat 1). rewrite view_nonneg. unfold reshape.
  replace (length (positives (batch_size self) sim) =?
           2 * batch_size self * 1) with false
    by (symmetry; apply Nat.eqb_neq; lia).
  reflexivity.
Qed.

End Positives.

Section Negatives.
Import SimCLR_TT_Loss.
Local Open Scope nat_scope.

Lemma view_infer_cols {T} (l : list T) r :
  r <> 0 -> view l (Z.of_nat r) (-1) = reshape_infer l r.
Proof.
  intros Hr. unfold view.
  replace (Z.of_nat r =? -1)%Z with false by (symmetry; apply Z.eqb_neq; lia).
  replace (Z.of_nat r <? 0)%Z with false by (symmetry; apply Z.ltb_ge; lia).
  cbn. now rewrite Nat2Z.id.
Qed.

(** The entries that the mask keeps, row by row. *)
Definition kept (sim : Tensor.t R) (mask : Tensor.t bool) : list (list R) :=
  zip_with select (rows sim) (rows mask).

Lemma kept_rows N (sim : Tensor.t R) (mask : Tensor.t bool) :
  1 <= N -> wf sim -> shape sim = (2 * N, 2 * N) ->
  rows mask = rows (tabulate (mask_entry N) (2 * N) (2 * N)) ->
  length (kept sim mask) = 2 * N /\
  Forall (fun r => length r = 2 * N - 2) (kept sim mask).
Proof.
  intros HN [H1 H2] Hs Hm. injection Hs as Hr Hc.
  rewrite Hr in H1. rewrite Hc in H2. unfold kept. rewrite Hm.
  cbn [tabulate rows]. split.
  - rewrite length_zip_with, H1, length_map, length_seq. apply Nat.min_id.
  - apply Forall_forall. intros r Hin.
    apply In_zip_with in Hin as (a & b & Ha & Hb & ->).
    apply in_map_iff in Hb as (i & <- & Hi). apply in_seq in Hi.
    rewrite Forall_forall in H2.
    rewrite length_select
      by (rewrite length_map, length_seq; apply H2, Ha).
    rewrite filter_true_map. apply count_mask_row; lia.
Qed.

(** [sim[self.mask].reshape(N, -1)] keeps [2 N - 2] entries of every
    row. *)
Lemma all_negative_samples_value self N (sim : Tensor.t R) :
  1 <= N -> batch_size self = N ->
  shape (mask self) = (2 * N, 2 * N) ->
  rows (mask self) = rows (tabulate (mask_entry N) (2 * N) (2 * N)) ->
  wf sim -> shape sim = (2 * N, 2 * N) ->
  all_negative_samples self sim =
  inr (Tensor.mk (2 * N) (2 * N - 2) (kept sim (mask self))).
Proof.
  intros HN Hb Hms Hm Hw Hs.
  destruct (@kept_rows N sim (mask self) HN Hw Hs Hm) as [Hl Hk].
  unfold all_negative_samples, masked_select.
  injection Hms as Hmr Hmc. injection Hs as Hr Hc.
  rewrite Hmr, Hmc, Hr, Hc, Nat.eqb_refl. cbn [andb bind ret].
  rewrite Hb, view_infer_cols by lia.
  rewrite select_rows_concat. fold (kept sim (mask self)).
  unfold reshape_infer.
  rewrite (length_concat_uniform Hk), Hl.
  replace (2 * N =? 0) with false by (symmetry; apply Nat.eqb_neq; lia).
  rewrite (Nat.mul_comm (2 * N) (2 * N - 2)).
  rewrite Nat.Div0.mod_mul, Nat.eqb_refl, Nat.div_mul by lia.
  unfold ret. do 2 f_equal.
  rewrite <- Hl at 1. apply chunks_concat, Hk.
Qed.

Lemma map_snd_combine {T U} (l : list T) : forall (l' : list U),
  length l = length l' -> map snd (combine l l') = l'.
Proof.
  induction l as [|a l IH]; intros [|b l'] H; try discriminate; auto.
  cbn [combine map snd]. f_equal. apply IH. now injection H.
Qed.

Lemma insert_by_perm {T} (leb : T -> T -> bool) x (l : list (T * nat)) :
  Permutation (insert_by leb x l) (x :: l).
Proof.
  induction l as [|y l IH]; cbn [insert_by]; [reflexivity|].
  destruct (leb (fst x) (fst y)); [reflexivity|].
  rewrite IH. apply perm_swap.
Qed.

Lemma sort_by_perm {T} (leb : T -> T -> bool) (l : list (T * nat)) :
  Permutation (sort_by leb l) l.
Proof.
  unfold sort_by. induction l as [|x l IH]; cbn [fold_right]; [reflexivity|].
  rewrite insert_by_perm. now constructor.
Qed.

(** [argsort] lists every position once. *)
Lemma argsort_perm {T} (leb : T -> T -> bool) (l : list T) :
  Permutation (argsort leb l) (seq 0 (length l)).
Proof.
  unfold argsort.
  rewrite (Permutation_map snd (sort_by_perm leb _)).
  rewrite map_snd_combine by (now rewrite length_seq). reflexivity.
Qed.

Lemma zip_gather_perm {T} k (rs : list (list T)) : forall ixs,
  Forall (fun r => length r = k) rs ->
  length ixs = length rs ->
  Forall (fun ix => Permutation ix (seq 0 k)) ixs ->
  Forall2 (@Permutation T) (zip_with gather rs ixs) rs.
Proof.
  induction rs as [|r rs IH]; intros [|ix ixs] Hrs Hl Hix;
    try discriminate; [constructor|].
  cbn [zip_with]. constructor.
  - apply gather_perm.
    rewrite (Forall_inv Hrs). exact (Forall_inv Hix).
  - apply IH; [exact (Forall_inv_tail Hrs) | now injection Hl
               | exact (Forall_inv_tail Hix)].
Qed.

(** The negatives after the random permutation of every row. *)
Definition shuffled (rnd : nat -> nat -> R) (negs : Tensor.t R)
  : Tensor.t R :=
  take_along_dim1 negs
    (argsort1 Rleb (tabulate rnd (nrows negs) (ncols negs))).

Lemma shuffled_perm rnd (negs : Tensor.t R) :
  wf negs -> Forall2 (@Permutation R) (rows (shuffled rnd negs)) (rows negs).
Proof.
  intros [H1 H2]. unfold shuffled, take_along_dim1, argsort1.
  cbn [rows tabulate nrows ncols].
  apply (zip_gather_perm H2).
  - now rewrite !length_map, length_seq.
  - apply Forall_map, Forall_map, Forall_forall. intros i _.
    pose proof (argsort_perm Rleb (map (rnd i) (seq 0 (ncols negs)))) as P.
    now rewrite length_map, length_seq in P.
Qed.

End Negatives.

Section Logits.
Import SimCLR_TT_Loss.
Local Open Scope nat_scope.

(** What [__init__] leaves in the instance. *)
Lemma init_inv f N T self :
  init f N T = inr self ->
  batch_size self = N /\ temperature self = T /\ sim_func self = f /\
  shape (mask self) = (2 * N, 2 * N) /\ wf (mask self) /\
  rows (mask self) = rows (tabulate (mask_entry N) (2 * N) (2 * N)).
Proof.
  unfold init. destruct (mask_rows N) as (m & E & Hs & Hw & Hr).
  rewrite E. cbn [bind ret]. intros H. injection H as <-.
  cbn [batch_size temperature sim_func mask].
  repeat split; try reflexivity; try assumption; apply Hw.
Qed.

Lemma init_ok f N T : exists self, init f N T = inr self.
Proof.
  unfold init. destruct (mask_rows N) as (m & E & _).
  rewrite E. cbn [bind ret]. eauto.
Qed.

Lemma Forall2_perm_length {T} k (rs' rs : list (list T)) :
  Forall2 (@Permutation T) rs' rs ->
  Forall (fun r => length r = k) rs -> Forall (fun r => length r = k) rs'.
Proof.
  induction 1 as [|r' r rs' rs P _ IH]; intros H; constructor.
  - rewrite (Permutation_length P). exact (Forall_inv H).
  - apply IH. exact (Forall_inv_tail H).
Qed.

Lemma wf_shuffled rnd (negs : Tensor.t R) :
  wf negs -> wf (shuffled rnd negs).
Proof.
  intros Hw. pose proof (shuffled_perm rnd Hw) as P. destruct Hw as [H1 H2].
  split.
  - rewrite (Forall2_length P). exact H1.
  - exact (Forall2_perm_length P H2).
Qed.

Lemma wf_take_cols {T} (m : Tensor.t T) c : wf m -> wf (take_cols m c).
Proof.
  intros [H1 H2]. split; cbn [take_cols rows nrows ncols].
  - now rewrite length_map.
  - apply Forall_map. eapply Forall_impl; [|exact H2].
    intros r Hr. cbn beta. now rewrite length_firstn, Hr.
Qed.

(** The shape of the negatives after [if config.N_negative:]. *)
Lemma wf_subsample cfg rnd (negs : Tensor.t R) :
  wf negs ->
  wf (subsample cfg rnd negs) /\
  nrows (subsample cfg rnd negs) = nrows negs /\
  ncols (subsample cfg rnd negs) =
    match Config.N_negative cfg with
    | Some (S c) => Nat.min (S c) (ncols negs)
    | _ => ncols negs
    end.
Proof.
  intros Hw. unfold subsample.
  destruct (Config.N_negative cfg) as [[|c]|]; auto.
  fold (shuffled rnd negs). split; [|split; reflexivity].
  apply wf_take_cols, wf_shuffled, Hw.
Qed.

(** A cap that no row reaches leaves every row a permutation of
    itself. *)
Lemma subsample_noop cfg rnd (negs : Tensor.t R) c :
  wf negs -> Config.N_negative cfg = Some c -> ncols negs <= c ->
  Forall2 (@Permutation R) (rows (subsample cfg rnd negs)) (rows negs).
Proof.
  intros Hw Hc Hle. unfold subsample. rewrite Hc.
  destruct c as [|c].
  - clear. induction (rows negs); constructor; auto.
  - fold (shuffled rnd negs). cbn [take_cols rows].
    pose proof (shuffled_perm rnd Hw) as P.
    pose proof (Forall2_perm_length P (proj2 Hw)) as Hl.
    replace (map (firstn (S c)) (rows (shuffled rnd negs)))
      with (rows (shuffled rnd negs)); [exact P|].
    rewrite <- (map_id (rows (shuffled rnd negs))) at 1.
    apply map_ext_in. intros r Hr. rewrite Forall_forall in Hl.
    symmetry. apply firstn_all2. rewrite (Hl r Hr). exact Hle.
Qed.

Lemma zip_app_singletons {T} (l : list T) : forall rs,
  zip_with (@app T) (map (fun a => [a]) l) rs = zip_with cons l rs.
Proof.
  induction l as [|a l IH]; intros [|r rs]; cbn [map zip_with]; auto.
  now rewrite IH.
Qed.

Lemma cat1_column {T} (l : list T) (m : Tensor.t T) n :
  nrows m = n ->
  cat1 (Tensor.mk n 1 (map (fun a => [a]) l)) m =
  inr (Tensor.mk n (1 + ncols m) (zip_with cons l (rows m))).
Proof.
  intros <-. unfold cat1. cbn [nrows ncols rows].
  now rewrite Nat.eqb_refl, zip_app_singletons.
Qed.

(** The loss of one row of logits whose label is 0. *)
Definition row_loss (a : R) (r : list R) : R :=
  (ln (sum_list (map exp (a :: r))) - a)%R.

Lemma cross_entropy_rows_cons (l : list R) : forall rs n,
  length (zip_with cons l rs) <= n ->
  cross_entropy_rows (zip_with cons l rs) (repeat 0 n) =
  inr (zip_with row_loss l rs).
Proof.
  induction l as [|a l IH]; intros [|r rs] [|n] H; cbn in H;
    try reflexivity; try lia.
  cbn [zip_with repeat cross_entropy_rows cross_entropy_row nth_error bind ret].
  rewrite IH by lia. reflexivity.
Qed.

Lemma criterion_value (l : list R) (rs : list (list R)) n k :
  length (zip_with cons l rs) = n ->
  criterion (Tensor.mk n k (zip_with cons l rs)) (repeat 0 n) =
  inr (sum_list (zip_with row_loss l rs)).
Proof.
  intros H. unfold criterion. cbn [nrows rows].
  rewrite repeat_length, Nat.eqb_refl.
  rewrite cross_entropy_rows_cons by lia. reflexivity.
Qed.

End Logits.

Section Forward.
Import SimCLR_TT_Loss.
Local Open Scope nat_scope.

(** [logits] on two batches with as many columns and [2 N] rows in
    all. *)
Lemma logits_value cfg rnd f N T self x x_pair :
  1 <= N -> init f N T = inr self -> pairwise f ->
  wf x -> wf x_pair -> ncols x = ncols x_pair ->
  nrows x + nrows x_pair = 2 * N ->
  exists sim negs,
    similarity self x x_pair = inr sim /\ wf sim /\
    shape sim = (2 * N, 2 * N) /\
    all_negative_samples self sim = inr negs /\ wf negs /\
    shape negs = (2 * N, 2 * N - 2) /\
    rows negs = kept sim (mask self) /\
    logits cfg rnd self x x_pair =
      inr (Tensor.mk (2 * N) (1 + ncols (subsample cfg rnd negs))
             (zip_with cons (positives N sim)
                (rows (subsample cfg rnd negs)))).
Proof.
  intros HN Hi Hf Hx Hp Hc Hr.
  destruct (@init_inv f N T self Hi) as (Hb & _ & Hsf & Hms & _ & Hmr).
  rewrite <- Hsf in Hf.
  destruct (@wf_similarity self x x_pair Hf Hx Hp Hc) as (sim & Es & Hw & Hs).
  rewrite Hr in Hs.
  pose proof (@all_negative_samples_value self N sim HN Hb Hms Hmr Hw Hs) as En.
  destruct (@kept_rows N sim (mask self) HN Hw Hs Hmr) as [Hl Hk].
  set (negs := Tensor.mk (2 * N) (2 * N - 2) (kept sim (mask self))) in *.
  assert (Hwn : wf negs) by (split; assumption).
  exists sim, negs.
  repeat (split; [first [assumption | reflexivity]|]).
  unfold logits. rewrite Es. cbn [bind].
  rewrite positive_samples_value by (rewrite ?Hb; assumption).
  cbn [bind]. rewrite En. cbn [bind]. rewrite Hb.
  apply cat1_column.
  destruct (@wf_subsample cfg rnd negs Hwn) as (_ & E & _). exact E.
Qed.

(** [forward] on two batches with as many columns and [2 N] rows in
    all. *)
Lemma forward_value cfg rnd f N T self x x_pair :
  1 <= N -> init f N T = inr self -> pairwise f ->
  wf x -> wf x_pair -> ncols x = ncols x_pair ->
  nrows x + nrows x_pair = 2 * N ->
  exists sim negs,
    similarity self x x_pair = inr sim /\ wf sim /\
    shape sim = (2 * N, 2 * N) /\
    all_negative_samples self sim = inr negs /\ wf negs /\
    shape negs = (2 * N, 2 * N - 2) /\
    length (zip_with row_loss (positives N sim)
              (rows (subsample cfg rnd negs))) = 2 * N /\
    forward cfg rnd self x x_pair =
      inr (sum_list (zip_with row_loss (positives N sim)
                       (rows (subsample cfg rnd negs)))
           / INR (2 * N))%R.
Proof.
  intros HN Hi Hf Hx Hp Hc Hr.
  destruct (@logits_value cfg rnd f N T self x x_pair HN Hi Hf Hx Hp Hc Hr)
    as (sim & negs & Es & Hw & Hs & En & Hwn & Hsn & _ & El).
  destruct (@init_inv f N T self Hi) as (Hb & _).
  destruct (@wf_subsample cfg rnd negs Hwn) as ([Hl' _] & E & _).
  assert (Hnr : nrows negs = 2 * N) by (now injection Hsn).
  assert (Hp2 : length (positives N sim) = 2 * N)
    by (rewrite (@length_positives N (2 * N) sim Hw Hs); lia).
  exists sim, negs.
  repeat (split; [first [assumption | reflexivity | congruence]|]).
  split.
  - rewrite length_zip_with, Hp2, Hl', E, Hnr. apply Nat.min_id.
  - unfold forward. rewrite El. cbn [bind]. rewrite Hb.
    rewrite criterion_value; [reflexivity|].
    rewrite length_zip_with, Hp2, Hl', E, Hnr. apply Nat.min_id.
Qed.

End Forward.

(* ================================================================== *)
(** * What the pairwise-similarity loss accepts and refuses *)

(** A similarity function for the examples: the inner products of the
    rows. *)
Definition sim_dot (a b : Tensor.t R) : Tensor.t R :=
  Tensor.mk (nrows a) (nrows b)
    (map (fun r => map (fun r' => dot r r') (rows b)) (rows a)).

(** The instance for a batch size of 1 and a temperature of 1. *)
Definition self1 : SimCLR_TT_Loss.t :=
  SimCLR_TT_Loss.mk 1 1 (Tensor.mk 2 2 [[false; false]; [false; false]])
                    sim_dot.

(** The instance for a batch size of 2 and a temperature of 1. *)
Definition self2 : SimCLR_TT_Loss.t :=
  SimCLR_TT_Loss.mk 2 1
    (Tensor.mk 4 4 [[false; true; false; true];
                    [true; false; true; false];
                    [false; true; false; true];
                    [true; false; true; false]])
    sim_dot.

(** Batches of one, two and three rows of one feature. *)
Definition x11 : Tensor.t R := Tensor.mk 1 1 [[1]].
Definition x21 : Tensor.t R := Tensor.mk 2 1 [[1]; [2]].
Definition x31 : Tensor.t R := Tensor.mk 3 1 [[1]; [2]; [3]].
Definition x12 : Tensor.t R := Tensor.mk 1 2 [[1; 2]].

Section Examples.
Local Open Scope nat_scope.

Lemma pairwise_sim_dot : pairwise sim_dot.
Proof.
  intros z [H1 H2]. split; [split|reflexivity]; cbn [sim_dot rows nrows ncols].
  - now rewrite length_map.
  - apply Forall_map, Forall_forall. intros r _. now rewrite length_map.
Qed.

Lemma init_self1 : SimCLR_TT_Loss.init sim_dot 1 1 = inr self1.
Proof. reflexivity. Qed.

Lemma init_self2 : SimCLR_TT_Loss.init sim_dot 2 1 = inr self2.
Proof. reflexivity. Qed.

Lemma wf_x11 : wf x11.
Proof. split; [reflexivity | repeat constructor]. Qed.

Lemma wf_x21 : wf x21.
Proof. split; [reflexivity | repeat constructor]. Qed.

Lemma wf_x31 : wf x31.
Proof. split; [reflexivity | repeat constructor]. Qed.

Lemma wf_x12 : wf x12.
Proof. split; [reflexivity | repeat constructor]. Qed.

End Examples.

Section Losses.
Local Open Scope R_scope.

Lemma sum_exp_pos (r : list R) : 0 <= sum_list (map exp r).
Proof.
  induction r as [|a r IH]; cbn [map sum_list fold_right]; [lra|].
  fold (sum_list (map exp r)). pose proof (exp_pos a). lra.
Qed.

(** The cross entropy of a row is never negative. *)
Lemma row_loss_nonneg a r : 0 <= row_loss a r.
Proof.
  unfold row_loss. cbn [map sum_list fold_right].
  fold (sum_list (map exp r)).
  pose proof (sum_exp_pos r) as Hs. pose proof (exp_pos a) as Ha.
  destruct (Req_dec (sum_list (map exp r)) 0) as [E|E].
  - rewrite E, Rplus_0_r, ln_exp. lra.
  - assert (H : ln (exp a) < ln (exp a + sum_list (map exp r)))
      by (apply ln_increasing; lra).
    rewrite ln_exp in H. lra.
Qed.

Lemma sum_list_nonneg l : (forall v, In v l -> 0 <= v) -> 0 <= sum_list l.
Proof.
  induction l as [|a l IH]; intros H; cbn [sum_list fold_right]; [lra|].
  fold (sum_list l).
  assert (0 <= a) by (apply H; now left).
  assert (0 <= sum_list l) by (apply IH; intros v Hv; apply H; now right).
  lra.
Qed.

Lemma sum_row_loss_nonneg l rs : 0 <= sum_list (zip_with row_loss l rs).
Proof.
  apply sum_list_nonneg. intros v Hv.
  apply In_zip_with in Hv as (a & r & _ & _ & ->). apply row_loss_nonneg.
Qed.

End Losses.

(** [SimCLR_TT_Loss.forward] raises [RuntimeError], from [torch.cat],
    when the two batches have different numbers of columns, whatever the
    instance and the similarity function are. *)
Theorem simclr_forward_feature_mismatch (cfg : Config.t)
  (rnd : nat -> nat -> R) (self : SimCLR_TT_Loss.t) (x x_pair : Tensor.t R) :
  ncols x <> ncols x_pair ->
  SimCLR_TT_Loss.forward cfg rnd self x x_pair = inl RuntimeError.
Proof.
  intros H. unfold SimCLR_TT_Loss.forward, SimCLR_TT_Loss.logits.
  now rewrite similarity_error.
Qed.

Lemma simclr_forward_feature_mismatch_witness :
  SimCLR_TT_Loss.forward cfg22 (fun _ _ => 0%R) self1 x11 x12
  = inl RuntimeError.
Proof.
  apply simclr_forward_feature_mismatch. cbn [ncols x11 x12]. lia.
Defined.

(** [SimCLR_TT_Loss.forward] raises [RuntimeError], from
    [reshape(N, 1)], when the two batches do not have [2 * batch_size]
    rows in all. *)
Theorem simclr_forward_row_mismatch (cfg : Config.t)
  (rnd : nat -> nat -> R) (self : SimCLR_TT_Loss.t) (x x_pair : Tensor.t R) :
  pairwise (SimCLR_TT_Loss.sim_func self) ->
  wf x -> wf x_pair -> ncols x = ncols x_pair ->
  (nrows x + nrows x_pair <> 2 * SimCLR_TT_Loss.batch_size self)%nat ->
  SimCLR_TT_Loss.forward cfg rnd self x x_pair = inl RuntimeError.
Proof.
  intros Hf Hx Hp Hc Hr.
  destruct (@wf_similarity self x x_pair Hf Hx Hp Hc) as (sim & Es & Hw & Hs).
  unfold SimCLR_TT_Loss.forward, SimCLR_TT_Loss.logits.
  rewrite Es. cbn [bind].
  now rewrite (@positive_samples_error self _ sim Hw Hs Hr).
Qed.

Lemma simclr_forward_row_mismatch_witness :
  SimCLR_TT_Loss.forward cfg22 (fun _ _ => 0%R) self1 x11 x21
  = inl RuntimeError.
Proof.
  apply simclr_forward_row_mismatch;
    [exact pairwise_sim_dot | exact wf_x11 | exact wf_x21 | reflexivity |].
  cbn [nrows x11 x21 SimCLR_TT_Loss.batch_size self1]. lia.
Defined.

(** [SimCLR_TT_Loss.forward] checks the total number of rows only: for
    a batch size [N >= 1] and a temperature that is not 0, two batches
    with as many columns and [2 N] rows in all give a loss, however the
    rows are split between them, and the loss is not negative. *)
Theorem simclr_forward_returns (cfg : Config.t) (rnd : nat -> nat -> R)
  (f : Tensor.t R -> Tensor.t R -> Tensor.t R) (N : nat) (T : R)
  (self : SimCLR_TT_Loss.t) (x x_pair : Tensor.t R) :
  (1 <= N)%nat -> T <> 0%R ->
  SimCLR_TT_Loss.init f N T = inr self -> pairwise f ->
  wf x -> wf x_pair -> ncols x = ncols x_pair ->
  (nrows x + nrows x_pair = 2 * N)%nat ->
  exists v, SimCLR_TT_Loss.forward cfg rnd self x x_pair = inr v /\
            (0 <= v)%R.
Proof.
  intros HN _ Hi Hf Hx Hp Hc Hr.
  destruct (@forward_value cfg rnd f N T self x x_pair HN Hi Hf Hx Hp Hc Hr)
    as (sim & negs & _ & _ & _ & _ & _ & _ & _ & E).
  eexists. split; [exact E|].
  apply Rmult_le_pos; [apply sum_row_loss_nonneg|].
  apply Rlt_le, Rinv_0_lt_compat, lt_0_INR. lia.
Qed.

Lemma simclr_forward_returns_witness :
  exists v, SimCLR_TT_Loss.forward cfg22 (fun _ _ => 0%R) self2 x11 x31
            = inr v /\ (0 <= v)%R.
Proof.
  apply (@simclr_forward_returns cfg22 (fun _ _ => 0%R) sim_dot 2 1 self2
           x11 x31);
    [lia | lra | exact init_self2 | exact pairwise_sim_dot | exact wf_x11
     | exact wf_x31 | reflexivity | reflexivity].
Defined.

Section LogitsFacts.
Import SimCLR_TT_Loss.
Local Open Scope nat_scope.

Lemma partner_lt N i : i < 2 * N -> partner N i < 2 * N.
Proof.
  intros H. unfold partner. destruct (Nat.ltb_spec i N); lia.
Qed.

Lemma mask_entry_partner N i j :
  1 <= N -> i < 2 * N -> j < 2 * N ->
  mask_entry N i j = negb ((j =? i) || (j =? partner N i)).
Proof.
  intros HN Hi Hj. unfold mask_entry, partner.
  destruct (Nat.ltb_spec i N);
    destruct (Nat.eqb_spec i j), (Nat.eqb_spec j (N + i)),
      (Nat.eqb_spec i (N + j)), (Nat.eqb_spec j i),
      (Nat.eqb_spec j (i + N)), (Nat.eqb_spec j (i - N));
    simpl; auto; lia.
Qed.

(** The entries that a row of the mask keeps, by their positions. *)
Lemma select_map_seq {T} (g : nat -> bool) (r : list T) : forall s,
  map Some (select r (map g (seq s (length r)))) =
  map (fun j => nth_error r (j - s)) (filter g (seq s (length r))).
Proof.
  induction r as [|a r IH]; intros s; [reflexivity|].
  cbn [length seq map select filter].
  assert (E : map (fun j => nth_error (a :: r) (j - s))
                  (filter g (seq (S s) (length r))) =
              map (fun j => nth_error r (j - S s))
                  (filter g (seq (S s) (length r)))).
  { apply map_ext_in. intros j Hj. apply filter_In in Hj as [Hj _].
    apply in_seq in Hj. replace (j - s) with (S (j - S s)) by lia.
    reflexivity. }
  destruct (g s); cbn [map].
  - rewrite Nat.sub_diag, IH, E. reflexivity.
  - rewrite IH, E. reflexivity.
Qed.

Lemma get_first_column (l : list R) (rs : list (list R)) n k i a :
  nth_error l i = Some a -> i < length rs ->
  get (Tensor.mk n k (zip_with cons l rs)) i 0 = Some a.
Proof.
  intros Ha Hi. unfold get. cbn [rows].
  rewrite nth_error_zip_with, Ha.
  destruct (nth_error rs i) as [r|] eqn:E; [reflexivity|].
  apply nth_error_None in E. lia.
Qed.

Lemma wf_with_first_column (l : list R) (negs : Tensor.t R) n :
  wf negs -> nrows negs = n -> length l = n ->
  wf (Tensor.mk n (1 + ncols negs) (zip_with cons l (rows negs))).
Proof.
  intros [H1 H2] Hn Hl. split; cbn [rows nrows ncols].
  - rewrite length_zip_with, Hl, H1, Hn. apply Nat.min_id.
  - apply Forall_forall. intros r Hr.
    apply In_zip_with in Hr as (a & r' & _ & Hr' & ->).
    rewrite Forall_forall in H2. cbn [length]. now rewrite (H2 r' Hr').
Qed.

Lemma row_loss_perm a r r' : Permutation r' r -> row_loss a r' = row_loss a r.
Proof.
  intros P. unfold row_loss. do 2 f_equal.
  apply sum_list_perm, Permutation_map. now constructor.
Qed.

Lemma zip_row_loss_perm (l : list R) : forall rs' rs,
  Forall2 (@Permutation R) rs' rs ->
  zip_with row_loss l rs' = zip_with row_loss l rs.
Proof.
  induction l as [|a l IH]; intros rs' rs H; destruct H as [|r' r rs' rs P H];
    cbn [zip_with]; try reflexivity.
  now rewrite (row_loss_perm a P), (IH _ _ H).
Qed.

End LogitsFacts.

(** The configuration without a cap on the negatives. *)
Definition uncapped (cfg : Config.t) : Config.t :=
  Config.mk None (Config.BATCH_SIZE cfg) (Config.HIDDEN_DIM cfg)
    (Config.VICREG_SIM_COEFF cfg) (Config.VICREG_STD_COEFF cfg)
    (Config.VICREG_COV_COEFF cfg).

(** Column 0 of [logits] holds, in every row [i], the similarity of row
    [i] of the concatenated batch and its partner, divided by the
    temperature. *)
Theorem simclr_logits_positive_column (cfg : Config.t)
  (rnd : nat -> nat -> R) (f : Tensor.t R -> Tensor.t R -> Tensor.t R)
  (N : nat) (T : R) (self : SimCLR_TT_Loss.t) (x x_pair : Tensor.t R) :
  (1 <= N)%nat -> T <> 0%R ->
  SimCLR_TT_Loss.init f N T = inr self -> pairwise f ->
  wf x -> wf x_pair -> ncols x = ncols x_pair ->
  (nrows x + nrows x_pair = 2 * N)%nat ->
  exists lg,
    SimCLR_TT_Loss.logits cfg rnd self x x_pair = inr lg /\
    forall i, (i < 2 * N)%nat ->
      exists s,
        get (f (cat_rows x x_pair) (cat_rows x x_pair)) i
            (SimCLR_TT_Loss.partner N i) = Some s /\
        get lg i 0 = Some (s / T)%R.
Proof.
  intros HN _ Hi Hf Hx Hp Hc Hr.
  destruct (@logits_value cfg rnd f N T self x x_pair HN Hi Hf Hx Hp Hc Hr)
    as (sim & negs & Es & Hw & Hs & En & Hwn & Hsn & _ & El).
  destruct (@init_inv f N T self Hi) as (_ & HT & Hsf & _).
  eexists. split; [exact El|]. intros i Hlt.
  rewrite (@similarity_value self x x_pair Hc), HT, Hsf in Es.
  injection Es as Es.
  destruct (Hf _ (@wf_cat_rows x x_pair Hx Hp Hc)) as [Hwz Hsz].
  cbn [cat_rows nrows] in Hsz. rewrite Hr in Hsz.
  destruct (@get_lt_Some _ (f (cat_rows x x_pair) (cat_rows x x_pair))
              i (SimCLR_TT_Loss.partner N i) Hwz) as [s Hg].
  { injection Hsz as -> _. exact Hlt. }
  { injection Hsz as _ ->. apply partner_lt, Hlt. }
  exists s. split; [exact Hg|].
  apply get_first_column.
  - rewrite (@positives_entry N sim i Hw Hs Hlt), <- Es, get_map2d, Hg.
    reflexivity.
  - destruct (@wf_subsample cfg rnd negs Hwn) as ([Hl _] & E & _).
    rewrite Hl, E. injection Hsn as -> _. exact Hlt.
Qed.

Lemma simclr_logits_positive_column_witness :
  exists lg,
    SimCLR_TT_Loss.logits cfg22 (fun _ _ => 0%R) self2 x21 x21 = inr lg /\
    forall i, (i < 2 * 2)%nat ->
      exists s,
        get (sim_dot (cat_rows x21 x21) (cat_rows x21 x21)) i
            (SimCLR_TT_Loss.partner 2 i) = Some s /\
        get lg i 0 = Some (s / 1)%R.
Proof.
  apply (@simclr_logits_positive_column cfg22 (fun _ _ => 0%R) sim_dot 2 1
           self2 x21 x21);
    [lia | lra | exact init_self2 | exact pairwise_sim_dot | exact wf_x21
     | exact wf_x21 | reflexivity | reflexivity].
Defined.

(** [logits] has [2 N] rows; its columns are the positive one and the
    negatives: [2 N - 2] of them, or the cap [config.N_negative] when it
    is set, not 0 and smaller. *)
Theorem simclr_logits_shape (cfg : Config.t)
  (rnd : nat -> nat -> R) (f : Tensor.t R -> Tensor.t R -> Tensor.t R)
  (N : nat) (T : R) (self : SimCLR_TT_Loss.t) (x x_pair : Tensor.t R) :
  (1 <= N)%nat -> SimCLR_TT_Loss.init f N T = inr self -> pairwise f ->
  wf x -> wf x_pair -> ncols x = ncols x_pair ->
  (nrows x + nrows x_pair = 2 * N)%nat ->
  exists lg,
    SimCLR_TT_Loss.logits cfg rnd self x x_pair = inr lg /\ wf lg /\
    shape lg =
      (2 * N,
       1 + match Config.N_negative cfg with
           | Some (S c) => Nat.min (S c) (2 * N - 2)
           | _ => 2 * N - 2
           end)%nat.
Proof.
  intros HN Hi Hf Hx Hp Hc Hr.
  destruct (@logits_value cfg rnd f N T self x x_pair HN Hi Hf Hx Hp Hc Hr)
    as (sim & negs & Es & Hw & Hs & En & Hwn & Hsn & _ & El).
  destruct (@wf_subsample cfg rnd negs Hwn) as (Hws & E & Ec).
  injection Hsn as Hnr Hnc.
  eexists. split; [exact El|]. split.
  - apply wf_with_first_column; [exact Hws | lia |].
    rewrite (@length_positives N (2 * N) sim Hw Hs). lia.
  - unfold shape; cbn [nrows ncols]. rewrite Ec, Hnc. reflexivity.
Qed.

Lemma simclr_logits_shape_witness :
  exists lg,
    SimCLR_TT_Loss.logits cfg22 (fun _ _ => 0%R) self2 x21 x21 = inr lg /\
    wf lg /\
    shape lg =
      (2 * 2,
       1 + match Config.N_negative cfg22 with
           | Some (S c) => Nat.min (S c) (2 * 2 - 2)
           | _ => 2 * 2 - 2
           end)%nat.
Proof.
  apply (@simclr_logits_shape cfg22 (fun _ _ => 0%R) sim_dot 2 1
           self2 x21 x21);
    [lia | exact init_self2 | exact pairwise_sim_dot | exact wf_x21
     | exact wf_x21 | reflexivity | reflexivity].
Defined.

(** A cap [config.N_negative] of at least [2 N - 2] changes nothing: the
    loss is the loss without a cap, whatever [torch.rand] draws. *)
Theorem simclr_cap_noop (cfg : Config.t) (c : nat)
  (rnd rnd' : nat -> nat -> R) (f : Tensor.t R -> Tensor.t R -> Tensor.t R)
  (N : nat) (T : R) (self : SimCLR_TT_Loss.t) (x x_pair : Tensor.t R) :
  (1 <= N)%nat -> T <> 0%R ->
  SimCLR_TT_Loss.init f N T = inr self -> pairwise f ->
  wf x -> wf x_pair -> ncols x = ncols x_pair ->
  (nrows x + nrows x_pair = 2 * N)%nat ->
  Config.N_negative cfg = Some c -> (2 * N - 2 <= c)%nat ->
  exists v,
    SimCLR_TT_Loss.forward cfg rnd self x x_pair = inr v /\
    SimCLR_TT_Loss.forward (uncapped cfg) rnd' self x x_pair = inr v.
Proof.
  intros HN _ Hi Hf Hx Hp Hc Hr Hcap Hle.
  destruct (@forward_value cfg rnd f N T self x x_pair HN Hi Hf Hx Hp Hc Hr)
    as (sim & negs & Es & Hw & Hs & En & Hwn & Hsn & _ & E).
  destruct (@forward_value (uncapped cfg) rnd' f N T self x x_pair
              HN Hi Hf Hx Hp Hc Hr)
    as (sim' & negs' & Es' & _ & _ & En' & _ & _ & _ & E').
  rewrite Es in Es'. injection Es' as <-.
  rewrite En in En'. injection En' as <-.
  eexists. split; [exact E|]. rewrite E'. do 3 f_equal.
  change (SimCLR_TT_Loss.subsample (uncapped cfg) rnd' negs) with negs.
  symmetry. apply zip_row_loss_perm.
  apply (@subsample_noop cfg rnd negs c Hwn Hcap).
  injection Hsn as _ ->. exact Hle.
Qed.

Definition cfg_cap5 : Config.t := Config.mk (Some 5%nat) 2 2 25 25 1.

Lemma simclr_cap_noop_witness :
  exists v,
    SimCLR_TT_Loss.forward cfg_cap5 (fun i j => INR (i + j)) self2 x21 x21
      = inr v /\
    SimCLR_TT_Loss.forward (uncapped cfg_cap5) (fun _ _ => 0%R) self2 x21 x21
      = inr v.
Proof.
  apply (@simclr_cap_noop cfg_cap5 5 (fun i j => INR (i + j))
           (fun _ _ => 0%R) sim_dot 2 1 self2 x21 x21);
    [lia | lra | exact init_self2 | exact pairwise_sim_dot | exact wf_x21
     | exact wf_x21 | reflexivity | reflexivity | reflexivity
     | cbn; lia].
Defined.

(** With a batch size of 0 the constructor succeeds, but
    [SimCLR_TT_Loss.forward] raises [RuntimeError] on every pair of
    batches: the batch size has to be at least 1. *)
Theorem simclr_batch_size_zero (cfg : Config.t) (rnd : nat -> nat -> R)
  (f : Tensor.t R -> Tensor.t R -> Tensor.t R) (T : R)
  (x x_pair : Tensor.t R) :
  pairwise f -> wf x -> wf x_pair ->
  exists self,
    SimCLR_TT_Loss.init f 0 T = inr self /\
    SimCLR_TT_Loss.forward cfg rnd self x x_pair = inl RuntimeError.
Proof.
  intros Hf Hx Hp.
  destruct (init_ok f 0 T) as [self Hi]. exists self. split; [exact Hi|].
  destruct (@init_inv f 0 T self Hi) as (Hb & _ & Hsf & Hms & _ & _).
  unfold SimCLR_TT_Loss.forward, SimCLR_TT_Loss.logits.
  destruct (Nat.eq_dec (ncols x) (ncols x_pair)) as [Hc|Hc].
  2:{ now rewrite similarity_error. }
  rewrite <- Hsf in Hf.
  destruct (@wf_similarity self x x_pair Hf Hx Hp Hc) as (sim & Es & Hw & Hs).
  rewrite Es. cbn [bind].
  destruct (Nat.eq_dec (nrows x + nrows x_pair) 0) as [Hr|Hr].
  2:{ rewrite (@positive_samples_error self _ sim Hw Hs); [reflexivity|].
      rewrite Hb. exact Hr. }
  rewrite Hr in Hs.
  rewrite positive_samples_value by (rewrite ?Hb; assumption).
  cbn [bind].
  unfold SimCLR_TT_Loss.all_negative_samples, masked_select.
  injection Hms as Hmr Hmc. injection Hs as Hsr Hsc.
  rewrite Hmr, Hmc, Hsr, Hsc, Hb. reflexivity.
Qed.

Lemma simclr_batch_size_zero_witness :
  exists self,
    SimCLR_TT_Loss.init sim_dot 0 1 = inr self /\
    SimCLR_TT_Loss.forward cfg22 (fun _ _ => 0%R) self x11 x11
    = inl RuntimeError.
Proof.
  apply (@simclr_batch_size_zero cfg22 (fun _ _ => 0%R) sim_dot 1 x11 x11);
    [exact pairwise_sim_dot | exact wf_x11 | exact wf_x11].
Defined.

(** For a batch size [N >= 1], every row of the mask that
    [mask_correlated_samples] returns has [2 N] entries, of which exactly
    [2 N - 2] are true. *)
Theorem mask_rows_keep (N : nat) :
  (1 <= N)%nat ->
  exists mask,
    SimCLR_TT_Loss.mask_correlated_samples N = inr mask /\
    forall i, (i < 2 * N)%nat ->
      exists row,
        nth_error (rows mask) i = Some row /\
        length row = (2 * N)%nat /\
        length (filter (fun b : bool => b) row) = (2 * N - 2)%nat.
Proof.
  intros HN. destruct (mask_rows N) as (mask & E & _ & _ & Hr).
  exists mask. split; [exact E|]. intros i Hi.
  exists (map (mask_entry N i) (seq 0 (2 * N))). split; [|split].
  - rewrite Hr. cbn [tabulate rows].
    now rewrite nth_error_map, (nth_error_seq0 Hi).
  - now rewrite length_map, length_seq.
  - rewrite filter_true_map. now apply count_mask_row.
Qed.

Lemma mask_rows_keep_witness :
  exists mask,
    SimCLR_TT_Loss.mask_correlated_samples 2 = inr mask /\
    forall i, (i < 2 * 2)%nat ->
      exists row,
        nth_error (rows mask) i = Some row /\
        length row = (2 * 2)%nat /\
        length (filter (fun b : bool => b) row) = (2 * 2 - 2)%nat.
Proof. apply (@mask_rows_keep 2). lia. Defined.

(** The negatives of row [i] are the similarities of row [i] to every
    row but itself and its partner, in the order of the rows: [2 N - 2]
    entries in each of the [2 N] rows. *)
Theorem simclr_negatives_entries
  (f : Tensor.t R -> Tensor.t R -> Tensor.t R) (N : nat) (T : R)
  (self : SimCLR_TT_Loss.t) (x x_pair : Tensor.t R) :
  (1 <= N)%nat -> SimCLR_TT_Loss.init f N T = inr self -> pairwise f ->
  wf x -> wf x_pair -> ncols x = ncols x_pair ->
  (nrows x + nrows x_pair = 2 * N)%nat ->
  exists sim negs,
    SimCLR_TT_Loss.similarity self x x_pair = inr sim /\
    SimCLR_TT_Loss.all_negative_samples self sim = inr negs /\
    wf negs /\ shape negs = (2 * N, 2 * N - 2)%nat /\
    forall i, (i < 2 * N)%nat ->
      exists row,
        nth_error (rows negs) i = Some row /\
        map Some row =
        map (get sim i)
            (filter (fun j => negb ((j =? i)%nat ||
                                    (j =? SimCLR_TT_Loss.partner N i)%nat))
                    (seq 0 (2 * N))).
Proof.
  intros HN Hi Hf Hx Hp Hc Hr.
  destruct (@logits_value (uncapped cfg22) (fun _ _ => 0%R) f N T self
              x x_pair HN Hi Hf Hx Hp Hc Hr)
    as (sim & negs & Es & Hw & Hs & En & Hwn & Hsn & Hk & _).
  destruct (@init_inv f N T self Hi) as (_ & _ & _ & _ & _ & Hmr).
  exists sim, negs. repeat (split; [assumption|]).
  intros i Hlt. destruct Hw as [H1 H2]. injection Hs as Hsr Hsc.
  rewrite Hsr in H1. rewrite Hsc in H2.
  destruct (nth_error (rows sim) i) as [r|] eqn:E.
  2:{ apply nth_error_None in E. lia. }
  assert (Hl : length r = (2 * N)%nat).
  { rewrite Forall_forall in H2. eapply H2, nth_error_In, E. }
  exists (select r (map (mask_entry N i) (seq 0 (2 * N)))). split.
  - rewrite Hk. unfold kept. rewrite nth_error_zip_with, E, Hmr.
    cbn [tabulate rows].
    now rewrite nth_error_map, (nth_error_seq0 Hlt).
  - rewrite <- Hl at 1 2. rewrite select_map_seq, Hl.
    rewrite (filter_ext_in (mask_entry N i)
               (fun j => negb ((j =? i)%nat ||
                               (j =? SimCLR_TT_Loss.partner N i)%nat))).
    2:{ intros j Hj. apply in_seq in Hj.
        apply mask_entry_partner; lia. }
    apply map_ext. intros j. unfold get. rewrite E.
    now rewrite Nat.sub_0_r.
Qed.

Lemma simclr_negatives_entries_witness :
  exists sim negs,
    SimCLR_TT_Loss.similarity self2 x21 x21 = inr sim /\
    SimCLR_TT_Loss.all_negative_samples self2 sim = inr negs /\
    wf negs /\ shape negs = (2 * 2, 2 * 2 - 2)%nat /\
    forall i, (i < 2 * 2)%nat ->
      exists row,
        nth_error (rows negs) i = Some row /\
        map Some row =
        map (get sim i)
            (filter (fun j => negb ((j =? i)%nat ||
                                    (j =? SimCLR_TT_Loss.partner 2 i)%nat))
                    (seq 0 (2 * 2))).
Proof.
  apply (@simclr_negatives_entries sim_dot 2 1 self2 x21 x21);
    [lia | exact init_self2 | exact pairwise_sim_dot | exact wf_x21
     | exact wf_x21 | reflexivity | reflexivity].
Defined.

(** The branch [if config.N_negative:] samples without replacement:
    with a cap [c >= 1], every row of the negatives becomes the first [c]
    entries of a permutation of itself. *)
Theorem simclr_subsample_rows (cfg : Config.t) (rnd : nat -> nat -> R)
  (negs : Tensor.t R) (c : nat) :
  wf negs -> Config.N_negative cfg = Some (S c) ->
  wf (SimCLR_TT_Loss.subsample cfg rnd negs) /\
  shape (SimCLR_TT_Loss.subsample cfg rnd negs) =
    (nrows negs, Nat.min (S c) (ncols negs)) /\
  Forall2 (fun r' r => exists p, Permutation p r /\ r' = firstn (S c) p)
          (rows (SimCLR_TT_Loss.subsample cfg rnd negs)) (rows negs).
Proof.
  intros Hw Hc.
  destruct (@wf_subsample cfg rnd negs Hw) as (Hws & Hr & Hcs).
  rewrite Hc in Hcs. split; [exact Hws|]. split.
  - unfold shape. now rewrite Hr, Hcs.
  - unfold SimCLR_TT_Loss.subsample. rewrite Hc.
    fold (shuffled rnd negs). cbn [take_cols rows].
    pose proof (shuffled_perm rnd Hw) as P.
    induction P as [|p r ps rs Hp _ IH]; cbn [map]; constructor; eauto.
Qed.

Definition cfg_cap1 : Config.t := Config.mk (Some 1%nat) 2 2 25 25 1.

Lemma simclr_subsample_rows_witness :
  wf (SimCLR_TT_Loss.subsample cfg_cap1 (fun i j => INR (i + j)) x12) /\
  shape (SimCLR_TT_Loss.subsample cfg_cap1 (fun i j => INR (i + j)) x12) =
    (nrows x12, Nat.min 1 (ncols x12)) /\
  Forall2 (fun r' r => exists p, Permutation p r /\ r' = firstn 1 p)
          (rows (SimCLR_TT_Loss.subsample cfg_cap1
                   (fun i j => INR (i + j)) x12))
          (rows x12).
Proof.
  apply (@simclr_subsample_rows cfg_cap1 (fun i j => INR (i + j)) x12 0);
    [exact wf_x12 | reflexivity].
Defined.

(* ================================================================== *)
(** * Symmetry and errors of the entrywise losses *)

Section Symmetry.
Local Open Scope nat_scope.

Lemma broadcast_dim_comm a b : broadcast_dim a b = broadcast_dim b a.
Proof.
  unfold broadcast_dim.
  destruct (Nat.eqb_spec a b), (Nat.eqb_spec b a), (Nat.eqb_spec a 1),
    (Nat.eqb_spec b 1); subst; try reflexivity; try congruence.
Qed.

Lemma zip_with_comm {T U V} (f : T -> U -> V) (g : U -> T -> V)
  (l : list T) : forall (l' : list U),
  (forall a b, f a b = g b a) -> zip_with f l l' = zip_with g l' l.
Proof.
  induction l as [|a l IH]; intros [|b l'] H; cbn [zip_with]; auto.
  now rewrite H, (IH l' H).
Qed.

Lemma zip2d_comm {T U V} (f : T -> U -> V) (g : U -> T -> V)
  (a : Tensor.t T) (b : Tensor.t U) :
  (forall u v, f u v = g v u) -> zip2d f a b = zip2d g b a.
Proof.
  intros H. unfold zip2d.
  rewrite (broadcast_dim_comm (nrows b)), (broadcast_dim_comm (ncols b)).
  destruct (broadcast_dim (nrows a) (nrows b)) as [r|]; [|reflexivity].
  destruct (broadcast_dim (ncols a) (ncols b)) as [c|]; [|reflexivity].
  unfold ret. do 2 f_equal.
  apply zip_with_comm. intros u v. now apply zip_with_comm.
Qed.

(** An entrywise operation raises when a dimension differs and is 1 on
    neither side. *)
Lemma zip2d_error {T U V} (f : T -> U -> V) (a : Tensor.t T)
  (b : Tensor.t U) :
  (nrows a <> nrows b /\ nrows a <> 1 /\ nrows b <> 1) \/
  (ncols a <> ncols b /\ ncols a <> 1 /\ ncols b <> 1) ->
  zip2d f a b = inl RuntimeError.
Proof.
  intros H. unfold zip2d, broadcast_dim.
  destruct (Nat.eqb_spec (nrows a) (nrows b)), (Nat.eqb_spec (nrows a) 1),
    (Nat.eqb_spec (nrows b) 1), (Nat.eqb_spec (ncols a) (ncols b)),
    (Nat.eqb_spec (ncols a) 1), (Nat.eqb_spec (ncols b) 1);
    try reflexivity; exfalso; tauto.
Qed.

End Symmetry.

Section VICRegSymmetry.
Import VICReg_TT_Loss.
Local Open Scope R_scope.

Lemma mse_loss_comm x y : mse_loss x y = mse_loss y x.
Proof.
  unfold mse_loss.
  rewrite (zip2d_comm (fun a b => (a - b) ^ 2) (fun a b => (a - b) ^ 2) x y);
    [reflexivity|].
  intros u v. ring.
Qed.

Lemma cov_loss_comm cfg x y : cov_loss cfg x y = cov_loss cfg y x.
Proof.
  unfold cov_loss. rewrite !cov_tabulate. cbn [bind].
  rewrite !cov_penalty_tabulate. cbn [bind ret]. f_equal. ring.
Qed.

Lemma terms_comm cfg x y : terms cfg x y = terms cfg y x.
Proof.
  unfold terms. rewrite (mse_loss_comm x y).
  destruct (mse_loss y x) as [e|v]; [reflexivity|]. cbn [bind].
  rewrite (cov_loss_comm cfg (center x) (center y)).
  destruct (cov_loss cfg (center y) (center x)) as [e|c]; [reflexivity|].
  cbn [bind ret]. do 3 f_equal. unfold std_loss. ring.
Qed.

End VICRegSymmetry.

(** [VICReg_TT_Loss.forward] is symmetric in its two batches: the loss,
    the diagnostics it stores and the exception it raises are the same
    for [(x, y)] and for [(y, x)]. *)
Theorem vicreg_forward_symmetric (cfg : Config.t) (self : VICReg_TT_Loss.t)
  (x y : Tensor.t R) :
  VICReg_TT_Loss.forward cfg self x y = VICReg_TT_Loss.forward cfg self y x.
Proof.
  unfold VICReg_TT_Loss.forward. now rewrite (terms_comm cfg x y).
Qed.

(** [BYOL_TT_Loss.forward] is symmetric in its two batches. *)
Theorem byol_forward_symmetric (self : BYOL_TT_Loss.t)
  (x x_pair : Tensor.t R) :
  BYOL_TT_Loss.forward self x x_pair = BYOL_TT_Loss.forward self x_pair x.
Proof.
  unfold BYOL_TT_Loss.forward.
  rewrite (zip2d_comm Rmult Rmult (BYOL_TT_Loss.normalize x)
             (BYOL_TT_Loss.normalize x_pair)); [reflexivity|].
  intros u v. apply Rmult_comm.
Qed.

(** [VICReg_TT_Loss.forward] raises [RuntimeError], from [F.mse_loss],
    when the two batches differ in a dimension that is 1 in neither of
    them. *)
Theorem vicreg_forward_shape_error (cfg : Config.t)
  (self : VICReg_TT_Loss.t) (x y : Tensor.t R) :
  (nrows x <> nrows y /\ nrows x <> 1%nat /\ nrows y <> 1%nat) \/
  (ncols x <> ncols y /\ ncols x <> 1%nat /\ ncols y <> 1%nat) ->
  VICReg_TT_Loss.forward cfg self x y = inl RuntimeError.
Proof.
  intros H. unfold VICReg_TT_Loss.forward, VICReg_TT_Loss.terms,
    VICReg_TT_Loss.mse_loss.
  now rewrite zip2d_error.
Qed.

Lemma vicreg_forward_shape_error_witness :
  VICReg_TT_Loss.forward cfg22 VICReg_TT_Loss.init x21 x31 = inl RuntimeError.
Proof.
  apply vicreg_forward_shape_error. left.
  cbn [nrows x21 x31]. repeat split; lia.
Defined.

(** [BYOL_TT_Loss.forward] raises [RuntimeError] when the two batches
    differ in a dimension that is 1 in neither of them. *)
Theorem byol_forward_shape_error (self : BYOL_TT_Loss.t)
  (x x_pair : Tensor.t R) :
  (nrows x <> nrows x_pair /\ nrows x <> 1%nat /\ nrows x_pair <> 1%nat) \/
  (ncols x <> ncols x_pair /\ ncols x <> 1%nat /\ ncols x_pair <> 1%nat) ->
  BYOL_TT_Loss.forward self x x_pair = inl RuntimeError.
Proof.
  intros H. unfold BYOL_TT_Loss.forward.
  now rewrite zip2d_error.
Qed.

Lemma byol_forward_shape_error_witness :
  BYOL_TT_Loss.forward (BYOL_TT_Loss.init sim_dot) x21 x31
  = inl RuntimeError.
Proof.
  apply byol_forward_shape_error. left.
  cbn [nrows x21 x31 BYOL_TT_Loss.normalize]. repeat split; lia.
Defined.

(* ================================================================== *)
(** * Bounds on the three terms *)

Section Bounds.
Import VICReg_TT_Loss.
Local Open Scope R_scope.

Lemma Rinv_INR_nonneg k : 0 <= / INR k.
Proof.
  destruct k as [|k].
  - cbn [INR]. rewrite Rinv_0. lra.
  - apply Rlt_le, Rinv_0_lt_compat, lt_0_INR. lia.
Qed.

Lemma mean_nonneg l : (forall v, In v l -> 0 <= v) -> 0 <= mean l.
Proof.
  intros H. unfold mean.
  apply Rmult_le_pos; [now apply sum_list_nonneg | apply Rinv_INR_nonneg].
Qed.

Lemma sum_list_le_length l :
  (forall v, In v l -> v <= 1) -> sum_list l <= INR (length l).
Proof.
  induction l as [|a l IH]; intros H; [cbn; lra|].
  change (sum_list (a :: l)) with (a + sum_list l).
  change (length (a :: l)) with (S (length l)). rewrite S_INR.
  assert (a <= 1) by (apply H; now left).
  assert (sum_list l <= INR (length l))
    by (apply IH; intros v Hv; apply H; now right).
  lra.
Qed.

Lemma mean_le_1 l : l <> [] -> (forall v, In v l -> v <= 1) -> mean l <= 1.
Proof.
  intros Hne H. unfold mean.
  assert (Hl : 0 < INR (length l)).
  { apply lt_0_INR. destruct l; [contradiction | cbn; lia]. }
  apply Rmult_le_reg_r with (INR (length l)); [exact Hl|].
  unfold Rdiv. rewrite Rmult_assoc, Rinv_l, Rmult_1_r, Rmult_1_l by lra.
  now apply sum_list_le_length.
Qed.

(** The hinge [relu(1 - std)] of a standard deviation lies between 0
    and 1. *)
Lemma hinge_bounds x v :
  In v (map (fun s => relu (1 - s)) (std x)) -> 0 <= v <= 1.
Proof.
  intros Hv. apply in_map_iff in Hv as (s & <- & Hs).
  unfold std in Hs. apply in_map_iff in Hs as (w & <- & _).
  pose proof (sqrt_pos (w + / 10 ^ 4)) as Hq. unfold relu. split.
  - apply Rmax_l.
  - apply Rmax_lub; lra.
Qed.

Lemma length_std x : length (std x) = ncols x.
Proof. unfold std, var0. now rewrite !length_map, length_seq. Qed.

Lemma hinge_mean_bounds x :
  (1 <= ncols x)%nat ->
  0 <= mean (map (fun s => relu (1 - s)) (std x)) <= 1.
Proof.
  intros Hd. split.
  - apply mean_nonneg. intros v Hv. now apply (hinge_bounds x).
  - apply mean_le_1.
    + intros E. apply (f_equal (@length R)) in E.
      rewrite length_map, length_std in E. cbn in E. lia.
    + intros v Hv. now apply (hinge_bounds x).
Qed.

Lemma off_sum_nonneg d f : (forall j k, 0 <= f j k) -> 0 <= off_sum d f.
Proof.
  intros H. unfold off_sum. apply sum_list_nonneg. intros v Hv.
  apply in_map_iff in Hv as (j & <- & _).
  apply sum_list_nonneg. intros w Hw.
  apply in_map_iff in Hw as (k & <- & _).
  destruct (j =? k)%nat; [lra | apply H].
Qed.

Lemma cov_penalty_spec_nonneg (b h : nat) x :
  0 <= cov_penalty_spec (INR b) (INR h) x.
Proof.
  unfold cov_penalty_spec.
  apply Rmult_le_pos; [|apply Rinv_INR_nonneg].
  apply off_sum_nonneg. intros j k. apply pow2_ge_0.
Qed.

Lemma mse_loss_nonneg x y v : mse_loss x y = inr v -> 0 <= v.
Proof.
  unfold mse_loss, zip2d.
  destruct (broadcast_dim (nrows x) (nrows y)) as [r|]; [|discriminate].
  destruct (broadcast_dim (ncols x) (ncols y)) as [c|]; [|discriminate].
  cbn [bind ret]. intros H. injection H as <-.
  apply mean_nonneg. intros w Hw. unfold flatten in Hw. cbn [rows] in Hw.
  apply in_concat in Hw as (row & Hrow & Hw).
  apply In_zip_with in Hrow as (a & b & _ & _ & ->).
  apply In_zip_with in Hw as (u & u' & _ & _ & ->).
  apply pow2_ge_0.
Qed.

(** The three terms on two batches of the same shape. *)
Lemma terms_value cfg x y :
  wf x -> wf y -> shape x = shape y ->
  exists r,
    mse_loss x y = inr r /\
    terms cfg x y =
    inr (r, std_loss (center x) (center y),
         cov_penalty_spec (INR (Config.BATCH_SIZE cfg))
                          (INR (Config.HIDDEN_DIM cfg)) (center x) +
         cov_penalty_spec (INR (Config.BATCH_SIZE cfg))
                          (INR (Config.HIDDEN_DIM cfg)) (center y)).
Proof.
  intros Hx Hy Hs.
  destruct (@mse_loss_same_shape x y Hx Hy Hs) as [r Er].
  exists r. split; [exact Er|]. unfold terms. rewrite Er. cbn [bind].
  rewrite cov_loss_value by (apply wf_center; assumption).
  reflexivity.
Qed.

End Bounds.

(** On two batches of the same shape [(n, d)] with [n >= 2] and
    [d >= 1], and with [config.BATCH_SIZE >= 2] and
    [config.HIDDEN_DIM >= 1] (below these, torch divides by zero),
    [VICReg_TT_Loss.forward] computes an invariance term that is not
    negative, a variance term between 0 and 1 and a covariance term that
    is not negative; with coefficients that are not negative, the loss is
    not negative. *)
Theorem vicreg_terms_bounds (cfg : Config.t) (self : VICReg_TT_Loss.t)
  (n d : nat) (x y : Tensor.t R) :
  wf x -> wf y -> shape x = (n, d) -> shape y = (n, d) ->
  (2 <= n)%nat -> (1 <= d)%nat ->
  (2 <= Config.BATCH_SIZE cfg)%nat -> (1 <= Config.HIDDEN_DIM cfg)%nat ->
  exists r s c,
    VICReg_TT_Loss.terms cfg x y = inr (r, s, c) /\
    (0 <= r)%R /\ (0 <= s <= 1)%R /\ (0 <= c)%R /\
    ((0 <= Config.VICREG_SIM_COEFF cfg)%R ->
     (0 <= Config.VICREG_STD_COEFF cfg)%R ->
     (0 <= Config.VICREG_COV_COEFF cfg)%R ->
     exists loss self',
       VICReg_TT_Loss.forward cfg self x y = inr (loss, self') /\
       (0 <= loss)%R).
Proof.
  intros Hx Hy Hsx Hsy _ Hd _ _.
  destruct (@terms_value cfg x y Hx Hy) as (r & Er & Et); [congruence|].
  pose proof (mse_loss_nonneg x y Er) as Hr.
  assert (Hcx : (1 <= ncols (VICReg_TT_Loss.center x))%nat)
    by (change (ncols (VICReg_TT_Loss.center x)) with (ncols x);
        injection Hsx as _ ->; exact Hd).
  assert (Hcy : (1 <= ncols (VICReg_TT_Loss.center y))%nat)
    by (change (ncols (VICReg_TT_Loss.center y)) with (ncols y);
        injection Hsy as _ ->; exact Hd).
  pose proof (hinge_mean_bounds _ Hcx) as Hbx.
  pose proof (hinge_mean_bounds _ Hcy) as Hby.
  pose proof (cov_penalty_spec_nonneg (Config.BATCH_SIZE cfg)
                (Config.HIDDEN_DIM cfg) (VICReg_TT_Loss.center x)) as Hpx.
  pose proof (cov_penalty_spec_nonneg (Config.BATCH_SIZE cfg)
                (Config.HIDDEN_DIM cfg) (VICReg_TT_Loss.center y)) as Hpy.
  assert (Hs : (0 <= VICReg_TT_Loss.std_loss (VICReg_TT_Loss.center x)
                       (VICReg_TT_Loss.center y) <= 1)%R).
  { unfold VICReg_TT_Loss.std_loss. lra. }
  do 3 eexists. split; [exact Et|].
  split; [exact Hr|]. split; [exact Hs|]. split; [lra|].
  intros H1 H2 H3. unfold VICReg_TT_Loss.forward. rewrite Et.
  cbn [bind ret]. do 2 eexists. split; [reflexivity|].
  apply Rplus_le_le_0_compat; [apply Rplus_le_le_0_compat|];
    apply Rmult_le_pos; lra.
Qed.

Lemma vicreg_terms_bounds_witness :
  exists r s c,
    VICReg_TT_Loss.terms cfg22 xpm xpm = inr (r, s, c) /\
    (0 <= r)%R /\ (0 <= s <= 1)%R /\ (0 <= c)%R /\
    ((0 <= Config.VICREG_SIM_COEFF cfg22)%R ->
     (0 <= Config.VICREG_STD_COEFF cfg22)%R ->
     (0 <= Config.VICREG_COV_COEFF cfg22)%R ->
     exists loss self',
       VICReg_TT_Loss.forward cfg22 VICReg_TT_Loss.init xpm xpm
       = inr (loss, self') /\
       (0 <= loss)%R).
Proof.
  apply (@vicreg_terms_bounds cfg22 VICReg_TT_Loss.init 2 2 xpm xpm);
    [exact wf_xpm | exact wf_xpm | reflexivity | reflexivity | lia | lia
     | cbn [Config.BATCH_SIZE cfg22]; lia
     | cbn [Config.HIDDEN_DIM cfg22]; lia].
Defined.



(* ================================================================== *)
(** * Rows of zeros and rescaled rows in the cosine-alignment loss *)

Section BYOLRows.
Import BYOL_TT_Loss.
Local Open Scope R_scope.

Lemma dot_zero_l a : forall b, Forall (fun v => v = 0) a -> dot a b = 0.
Proof.
  unfold dot. induction a as [|x a IH]; intros [|y b] H; try reflexivity.
  cbn [zip_with sum_list fold_right].
  fold (sum_list (zip_with Rmult a b)).
  rewrite (Forall_inv H), (IH b (Forall_inv_tail H)). ring.
Qed.

Lemma normalize_row_zero r :
  Forall (fun v => v = 0) r -> Forall (fun v => v = 0) (normalize_row r).
Proof.
  intros H. unfold normalize_row.
  destruct (Rleb _ float_max); apply Forall_map.
  - eapply Forall_impl; [|exact H]. intros v ->. unfold Rdiv. ring.
  - eapply Forall_impl; [|exact H]. reflexivity.
Qed.

Lemma sumsq_scale c r : sumsq (map (Rmult c) r) = c * c * sumsq r.
Proof.
  unfold sumsq. induction r as [|a r IH]; cbn [map sum_list fold_right].
  - ring.
  - fold (sum_list (map (fun v => v * v) (map (Rmult c) r))).
    fold (sum_list (map (fun v => v * v) r)). rewrite IH. ring.
Qed.

Lemma norm2_scale c r : 0 <= c -> norm2 (map (Rmult c) r) = c * norm2 r.
Proof.
  intros Hc. unfold norm2. fold (sumsq (map (Rmult c) r)). fold (sumsq r).
  rewrite sumsq_scale, sqrt_mult;
    [| apply Rmult_le_pos; assumption | apply sumsq_nonneg].
  now rewrite sqrt_square.
Qed.

(** A row that stays above the floor and in the range of the floats is
    normalized to the same row after it is multiplied by a positive
    number. *)
Lemma normalize_row_scale c r :
  0 < c -> eps <= norm2 r -> eps <= c * norm2 r ->
  sumsq r <= float_max -> c * c * sumsq r <= float_max ->
  normalize_row (map (Rmult c) r) = normalize_row r.
Proof.
  intros Hc H1 H2 H3 H4.
  rewrite (normalize_row_in_range r H3).
  rewrite normalize_row_in_range by (now rewrite sumsq_scale).
  rewrite norm2_scale by lra.
  rewrite !Rmax_left by assumption.
  rewrite map_map. apply map_ext. intros v.
  pose proof eps_pos. field. split; lra.
Qed.

End BYOLRows.

(** A row of zeros in the first batch gives the loss 2 in that row,
    whatever the row of the other batch is. *)
Theorem byol_zero_row (self : BYOL_TT_Loss.t) (N D : nat)
  (x x_pair : Tensor.t R) (i : nat) (r : list R) :
  wf x -> wf x_pair -> shape x = (N, D) -> shape x_pair = (N, D) ->
  nth_error (rows x) i = Some r -> Forall (fun v => v = 0%R) r ->
  exists l,
    BYOL_TT_Loss.forward self x x_pair = inr l /\ nth_error l i = Some 2%R.
Proof.
  intros Hx Hp Hs Hs' Hr Hz.
  eexists. split; [apply forward_same_shape; congruence|].
  rewrite nth_error_zip_with, Hr.
  destruct (nth_error (rows x_pair) i) as [r'|] eqn:E.
  - unfold pair_loss.
    rewrite (dot_zero_l _ (normalize_row_zero Hz)). f_equal. ring.
  - apply nth_error_None in E.
    assert (i < length (rows x))%nat by (apply nth_error_Some; congruence).
    destruct Hx as [Hx _], Hp as [Hp _].
    injection Hs as E1 _. injection Hs' as E2 _. lia.
Qed.

Definition x0 : Tensor.t R := Tensor.mk 1 2 [[0; 0]].

Lemma byol_zero_row_witness :
  exists l,
    BYOL_TT_Loss.forward (BYOL_TT_Loss.init sim_dot) x0 x34 = inr l /\
    nth_error l 0 = Some 2%R.
Proof.
  apply (@byol_zero_row (BYOL_TT_Loss.init sim_dot) 1 2 x0 x34 0 [0; 0]%R);
    [split; [reflexivity | repeat constructor] | exact wf_x34 | reflexivity
     | reflexivity | reflexivity | repeat constructor].
Defined.

(** The loss depends on the directions of the rows only: multiplying the
    first batch by a positive number [c] does not change the result, as
    long as, before and after, the norm of every row stays at or above the
    floor of [F.normalize] and the sum of its squares stays in the range
    of the floats. *)
Theorem byol_scale_invariant (self : BYOL_TT_Loss.t) (c : R)
  (x x_pair : Tensor.t R) :
  (0 < c)%R ->
  (forall r, In r (rows x) ->
     (BYOL_TT_Loss.eps <= BYOL_TT_Loss.norm2 r)%R /\
     (BYOL_TT_Loss.eps <= c * BYOL_TT_Loss.norm2 r)%R /\
     (sumsq r <= BYOL_TT_Loss.float_max)%R /\
     (c * c * sumsq r <= BYOL_TT_Loss.float_max)%R) ->
  BYOL_TT_Loss.forward self (map2d (Rmult c) x) x_pair =
  BYOL_TT_Loss.forward self x x_pair.
Proof.
  intros Hc H. unfold BYOL_TT_Loss.forward.
  replace (BYOL_TT_Loss.normalize (map2d (Rmult c) x))
    with (BYOL_TT_Loss.normalize x); [reflexivity|].
  unfold BYOL_TT_Loss.normalize. cbn [map2d nrows ncols rows]. f_equal.
  rewrite map_map. apply map_ext_in. intros r Hr.
  destruct (H r Hr) as (H1 & H2 & H3 & H4). symmetry.
  now apply normalize_row_scale.
Qed.

Lemma byol_scale_invariant_witness :
  BYOL_TT_Loss.forward (BYOL_TT_Loss.init sim_dot) (map2d (Rmult 2) x34) x34 =
  BYOL_TT_Loss.forward (BYOL_TT_Loss.init sim_dot) x34 x34.
Proof.
  apply byol_scale_invariant; [lra|].
  intros r [<-|[]]. rewrite norm2_34, sumsq_34.
  pose proof eps_le_1. pose proof float_max_ge. repeat split; lra.
Defined.

(** [VICReg_TT_Loss.off_diagonal] raises [AssertionError] on a tensor
    that is not square, and on a square tensor of any size [n], 0
    included, it returns [n * n - n] entries. *)
Theorem off_diagonal_total (A : Type) (m : Tensor.t A) :
  wf m ->
  (nrows m <> ncols m ->
   VICReg_TT_Loss.off_diagonal m = inl AssertionError) /\
  (nrows m = ncols m ->
   exists l, VICReg_TT_Loss.off_diagonal m = inr l /\
             length l = (nrows m * nrows m - nrows m)%nat).
Proof.
  intros Hw. split.
  - intros H. unfold VICReg_TT_Loss.off_diagonal.
    destruct (Nat.eqb_spec (nrows m) (ncols m)); [contradiction|].
    reflexivity.
  - intros H. destruct (nrows m) as [|n] eqn:En.
    + destruct m as [r c rs]. destruct Hw as [H1 _].
      cbn [nrows ncols rows] in *. subst r. subst c.
      destruct rs; [|discriminate]. exists []. split; reflexivity.
    + destruct (@off_diagonal_row_major A (S n) m) as [E L];
        [lia | exact Hw | unfold shape; congruence |].
      eexists. split; [exact E | exact L].
Qed.

Lemma off_diagonal_total_witness :
  (nrows m33 <> ncols m33 ->
   VICReg_TT_Loss.off_diagonal m33 = inl AssertionError) /\
  (nrows m33 = ncols m33 ->
   exists l, VICReg_TT_Loss.off_diagonal m33 = inr l /\
             length l = (nrows m33 * nrows m33 - nrows m33)%nat).
Proof. apply (@off_diagonal_total nat m33 wf_m33). Defined.

Section Opposite.
Import BYOL_TT_Loss.
Local Open Scope R_scope.

Lemma zip_with_map_r {T U V} (f : T -> U -> V) (h : T -> U) (l : list T) :
  zip_with f l (map h l) = map (fun a => f a (h a)) l.
Proof.
  induction l as [|a l IH]; [reflexivity|].
  cbn [map zip_with]. now rewrite IH.
Qed.

Lemma sumsq_opp r : sumsq (map Ropp r) = sumsq r.
Proof.
  unfold sumsq. induction r as [|a r IH]; [reflexivity|].
  cbn [map sum_list fold_right].
  fold (sum_list (map (fun v => v * v) (map Ropp r))).
  fold (sum_list (map (fun v => v * v) r)). rewrite IH. ring.
Qed.

Lemma dot_opp r : dot r (map Ropp r) = - sumsq r.
Proof.
  unfold dot, sumsq. induction r as [|a r IH]; cbn [map zip_with sum_list
    fold_right]; [ring|].
  fold (sum_list (zip_with Rmult r (map Ropp r))).
  fold (sum_list (map (fun v => v * v) r)). rewrite IH. ring.
Qed.

(** A row in the range of the floats that reaches the floor is at
    distance 4 from its opposite. *)
Lemma pair_loss_opp r :
  eps <= norm2 r -> sumsq r <= float_max -> pair_loss r (map Ropp r) = 4.
Proof.
  intros H Hm. unfold pair_loss.
  rewrite normalized_dot by (rewrite ?sumsq_opp; exact Hm).
  rewrite dot_opp.
  assert (E : norm2 (map Ropp r) = norm2 r).
  { unfold norm2. fold (sumsq (map Ropp r)). fold (sumsq r).
    now rewrite sumsq_opp. }
  rewrite E, Rmax_left by exact H.
  assert (Hn : 0 < norm2 r) by (pose proof eps_pos; lra).
  unfold norm2 in *. fold (sumsq r) in *.
  rewrite sqrt_sqrt by apply sumsq_nonneg.
  assert (Hs : sumsq r <> 0).
  { intros E0. rewrite E0, sqrt_0 in Hn. lra. }
  field. exact Hs.
Qed.

End Opposite.

(** The bound 4 of the cosine-alignment loss is reached: on a batch
    whose rows all reach the floor of [F.normalize] and have a sum of
    squares in the range of the floats, and on its opposite, every entry
    of the result is 4. *)
Theorem byol_opposite_rows (self : BYOL_TT_Loss.t) (N D : nat)
  (x : Tensor.t R) :
  wf x -> shape x = (N, D) ->
  (forall r, In r (rows x) ->
             (BYOL_TT_Loss.eps <= BYOL_TT_Loss.norm2 r)%R /\
             (sumsq r <= BYOL_TT_Loss.float_max)%R) ->
  exists l,
    BYOL_TT_Loss.forward self x (map2d Ropp x) = inr l /\
    length l = N /\ forall v, In v l -> v = 4%R.
Proof.
  intros Hx Hs Hn.
  exists (map (fun r => pair_loss r (map Ropp r)) (rows x)).
  split; [|split].
  - rewrite forward_same_shape;
      [| exact Hx | now apply wf_map2d | reflexivity].
    cbn [map2d rows]. now rewrite zip_with_map_r.
  - rewrite length_map. destruct Hx as [Hx _].
    injection Hs as <- _. exact Hx.
  - intros v Hv. apply in_map_iff in Hv as (r & <- & Hr).
    destruct (Hn r Hr) as [H1 H2]. now apply pair_loss_opp.
Qed.

Lemma byol_opposite_rows_witness :
  exists l,
    BYOL_TT_Loss.forward (BYOL_TT_Loss.init sim_dot) x34 (map2d Ropp x34)
    = inr l /\
    length l = 1%nat /\ forall v, In v l -> v = 4%R.
Proof.
  apply (@byol_opposite_rows (BYOL_TT_Loss.init sim_dot) 1 2 x34 wf_x34
           eq_refl).
  intros r [<-|[]]. rewrite norm2_34, sumsq_34.
  pose proof eps_le_1. pose proof float_max_ge. split; lra.
Defined.

(** What [VICReg_TT_Loss.forward] leaves in the instance: whenever it
    returns, the three terms [r], [s], [c] are the invariance term
    [F.mse_loss(x, y)], the variance term and the covariance term of the
    centred batches; [positive_distance] is [r], which is not negative,
    [log_prob] is [- c - s], [log_cond_prob] is [- r]; the loss is the
    sum of the terms weighted by the coefficients, and with the three
    coefficients equal to 1 it is [- log_prob - log_cond_prob]. *)
Theorem vicreg_diagnostics (cfg : Config.t) (self self' : VICReg_TT_Loss.t)
  (x y : Tensor.t R) (loss : R) :
  VICReg_TT_Loss.forward cfg self x y = inr (loss, self') ->
  exists r s c,
    VICReg_TT_Loss.mse_loss x y = inr r /\
    s = VICReg_TT_Loss.std_loss (VICReg_TT_Loss.center x)
                                (VICReg_TT_Loss.center y) /\
    VICReg_TT_Loss.cov_loss cfg (VICReg_TT_Loss.center x)
                                (VICReg_TT_Loss.center y) = inr c /\
    VICReg_TT_Loss.positive_distance self' = Some r /\
    VICReg_TT_Loss.log_prob self' = Some (- c - s)%R /\
    VICReg_TT_Loss.log_cond_prob self' = Some (- r)%R /\
    (0 <= r)%R /\
    loss = (Config.VICREG_SIM_COEFF cfg * r
            + Config.VICREG_STD_COEFF cfg * s
            + Config.VICREG_COV_COEFF cfg * c)%R /\
    (Config.VICREG_SIM_COEFF cfg = 1%R ->
     Config.VICREG_STD_COEFF cfg = 1%R ->
     Config.VICREG_COV_COEFF cfg = 1%R ->
     loss = (- (- c - s) - (- r))%R).
Proof.
  unfold VICReg_TT_Loss.forward, VICReg_TT_Loss.terms.
  destruct (VICReg_TT_Loss.mse_loss x y) as [e|r] eqn:Er; [discriminate|].
  cbn [bind].
  destruct (VICReg_TT_Loss.cov_loss cfg (VICReg_TT_Loss.center x)
              (VICReg_TT_Loss.center y)) as [e|c]; [discriminate|].
  cbn [bind ret]. intros H. injection H as <- <-.
  exists r. do 2 eexists. repeat (split; [reflexivity|]).
  split; [exact (mse_loss_nonneg x y Er)|]. split; [reflexivity|].
  intros -> -> ->. ring.
Qed.

Definition cfg111 : Config.t := Config.mk None 2 2 1 1 1.

Lemma vicreg_diagnostics_witness :
  exists loss self',
    VICReg_TT_Loss.forward cfg111 VICReg_TT_Loss.init (zeros 2 2) (zeros 2 2)
      = inr (loss, self') /\
    VICReg_TT_Loss.positive_distance self' = Some 0%R /\
    VICReg_TT_Loss.log_cond_prob self' = Some (- 0)%R /\
    exists lp, VICReg_TT_Loss.log_prob self' = Some lp /\
               loss = (- lp - (- 0))%R.
Proof.
  pose proof (@terms_zeros cfg111 2 2) as Et.
  assert (Ef : VICReg_TT_Loss.forward cfg111 VICReg_TT_Loss.init
                 (zeros 2 2) (zeros 2 2)
               = inr ((1 * 0 + 1 * (99 / 100) + 1 * 0)%R,
                      VICReg_TT_Loss.mk (Some 0%R)
                        (Some (- 0 - 99 / 100)%R) (Some (- 0)%R))).
  { unfold VICReg_TT_Loss.forward. rewrite Et by lia. reflexivity. }
  destruct (@vicreg_diagnostics cfg111 VICReg_TT_Loss.init _ _ _ _ Ef)
    as (r & s & c & Er & Es & Ec & Hpd & Hlp & Hlcp & Hr & Hl & H1).
  rewrite (@mse_loss_self (zeros 2 2)) in Er by apply wf_full.
  injection Er as <-.
  do 2 eexists. split; [exact Ef|]. split; [exact Hpd|].
  split; [exact Hlcp|]. eexists. split; [exact Hlp|].
  now apply H1.
Defined.

(* ================================================================== *)
(** * Translations of a batch *)

(** [x + b] for a row vector [b] *)
Definition add_rowvec (x : Tensor.t R) (b : list R) : Tensor.t R :=
  Tensor.mk (nrows x) (ncols x) (map (fun r => zip_with Rplus r b) (rows x)).

Section Translation.
Import VICReg_TT_Loss.
Local Open Scope R_scope.

Lemma length_column {T} (rs : list (list T)) d j :
  Forall (fun r => length r = d) rs -> (j < d)%nat ->
  length (column j rs) = length rs.
Proof.
  intros H Hj. induction H as [|r rs Hr _ IH]; [reflexivity|].
  rewrite column_cons.
  destruct (nth_error r j) as [v|] eqn:E.
  - cbn [length]. now rewrite IH.
  - apply nth_error_None in E. lia.
Qed.

Lemma column_shift (rs : list (list R)) d b j :
  Forall (fun r => length r = d) rs -> length b = d -> (j < d)%nat ->
  column j (map (fun r => zip_with Rplus r b) rs) =
  map (fun v => v + nth j b 0) (column j rs).
Proof.
  intros H Hb Hj. induction H as [|r rs Hr _ IH]; [reflexivity|].
  cbn [map]. rewrite !column_cons, nth_error_zip_with.
  rewrite (nth_error_nth' r 0) by lia.
  rewrite (nth_error_nth' b 0) by lia.
  cbn [map]. now rewrite IH.
Qed.

Lemma sum_list_map_plus c l :
  sum_list (map (fun v => v + c) l) = sum_list l + INR (length l) * c.
Proof.
  induction l as [|a l IH]; [cbn; ring|].
  change (sum_list (map (fun v => v + c) (a :: l)))
    with (a + c + sum_list (map (fun v => v + c) l)).
  change (sum_list (a :: l)) with (a + sum_list l).
  change (length (a :: l)) with (S (length l)).
  rewrite IH, S_INR. ring.
Qed.

Lemma mean_shift c l :
  (1 <= length l)%nat -> mean (map (fun v => v + c) l) = mean l + c.
Proof.
  intros H. unfold mean. rewrite sum_list_map_plus, length_map.
  field. apply not_0_INR. lia.
Qed.

Lemma wf_add_rowvec x b : wf x -> length b = ncols x -> wf (add_rowvec x b).
Proof.
  intros [H1 H2] Hb. split; cbn [add_rowvec rows nrows ncols].
  - now rewrite length_map.
  - apply Forall_map. eapply Forall_impl; [|exact H2].
    intros r Hr. cbn beta. rewrite length_zip_with, Hr, Hb.
    apply Nat.min_id.
Qed.

(** Centring removes a translation of the batch. *)
Lemma center_shift x b :
  wf x -> length b = ncols x -> (1 <= nrows x)%nat ->
  center (add_rowvec x b) = center x.
Proof.
  intros [H1 H2] Hb Hn. unfold center, sub_rowvec.
  cbn [add_rowvec nrows ncols rows]. f_equal.
  rewrite map_map. apply map_ext_in. intros r Hr.
  assert (Hl : length r = ncols x)
    by (rewrite Forall_forall in H2; now apply H2).
  apply nth_error_ext. intros j.
  rewrite !nth_error_zip_with. unfold mean0.
  cbn [add_rowvec nrows ncols rows]. rewrite !nth_error_map.
  destruct (Nat.lt_ge_cases j (ncols x)) as [Hj|Hj].
  - rewrite (nth_error_seq0 Hj). cbn [option_map].
    rewrite (nth_error_nth' r 0) by lia.
    rewrite (nth_error_nth' b 0) by lia.
    rewrite (@column_shift (rows x) (ncols x) b j H2 Hb Hj), mean_shift
      by (rewrite (@length_column R (rows x) (ncols x) j H2 Hj); lia).
    f_equal. ring.
  - rewrite (proj2 (nth_error_None r j)) by lia. reflexivity.
Qed.

End Translation.

(** The variance and covariance terms of [VICReg_TT_Loss.forward] do
    not change when a row vector is added to every row of [x] and another
    one to every row of [y]: centring removes the translation. *)
Theorem vicreg_translation_invariant (cfg : Config.t) (n d : nat)
  (x y : Tensor.t R) (b b' : list R) :
  wf x -> wf y -> shape x = (n, d) -> shape y = (n, d) -> (2 <= n)%nat ->
  length b = d -> length b' = d ->
  exists r r' s c,
    VICReg_TT_Loss.terms cfg x y = inr (r, s, c) /\
    VICReg_TT_Loss.terms cfg (add_rowvec x b) (add_rowvec y b')
      = inr (r', s, c).
Proof.
  intros Hx Hy Hsx Hsy Hn Hb Hb'.
  injection Hsx as Hnx Hdx. injection Hsy as Hny Hdy.
  assert (Hbx : length b = ncols x) by congruence.
  assert (Hby : length b' = ncols y) by congruence.
  destruct (@terms_value cfg x y Hx Hy) as (r & _ & Et);
    [unfold shape; congruence|].
  destruct (@terms_value cfg (add_rowvec x b) (add_rowvec y b')
              (@wf_add_rowvec x b Hx Hbx) (@wf_add_rowvec y b' Hy Hby))
    as (r' & _ & Et'); [unfold shape; cbn [add_rowvec nrows ncols]; congruence|].
  rewrite (@center_shift x b Hx Hbx), (@center_shift y b' Hy Hby) in Et'
    by lia.
  exists r, r'. do 2 eexists. split; [exact Et | exact Et'].
Qed.

Lemma vicreg_translation_invariant_witness :
  exists r r' s c,
    VICReg_TT_Loss.terms cfg22 xpm xpm = inr (r, s, c) /\
    VICReg_TT_Loss.terms cfg22 (add_rowvec xpm [1; 2]%R)
                               (add_rowvec xpm [3; 4]%R)
      = inr (r', s, c).
Proof.
  apply (@vicreg_translation_invariant cfg22 2 2 xpm xpm [1; 2]%R [3; 4]%R);
    [exact wf_xpm | exact wf_xpm | reflexivity | reflexivity | lia
     | reflexivity | reflexivity].
Defined.

(* ================================================================== *)
(** * The pairwise-similarity loss on two batches of [N] rows *)

Section PositiveColumn.
Local Open Scope nat_scope.

Lemma column0_zip_cons {T} (l : list T) : forall rs,
  length l <= length rs -> column 0 (zip_with cons l rs) = l.
Proof.
  induction l as [|a l IH]; intros [|r rs] H; cbn [length] in H;
    try reflexivity; try lia.
  cbn [zip_with]. rewrite column_cons. cbn [nth_error].
  rewrite IH by lia. reflexivity.
Qed.

End PositiveColumn.

(** C1. For a batch size [N >= 1], a temperature that is not 0 and two
    batches of shape [(N, D)], column 0 of the logits that
    [SimCLR_TT_Loss.forward] forms is the diagonal [+N] of the
    temperature-scaled similarity tensor followed by its diagonal [-N];
    in every row [i] it is the similarity of row [i] of the concatenated
    batch and its partner, the row [i + N] for [i < N] and [i - N]
    otherwise. *)
Theorem simclr_positive_logits (cfg : Config.t) (rnd : nat -> nat -> R)
  (f : Tensor.t R -> Tensor.t R -> Tensor.t R) (N D : nat) (T : R)
  (self : SimCLR_TT_Loss.t) (x x_pair : Tensor.t R) :
  (1 <= N)%nat -> T <> 0%R ->
  SimCLR_TT_Loss.init f N T = inr self -> pairwise f ->
  wf x -> wf x_pair -> shape x = (N, D) -> shape x_pair = (N, D) ->
  exists sim lg,
    sim = map2d (fun v => (v / T)%R)
            (f (cat_rows x x_pair) (cat_rows x x_pair)) /\
    SimCLR_TT_Loss.similarity self x x_pair = inr sim /\
    SimCLR_TT_Loss.logits cfg rnd self x x_pair = inr lg /\
    column 0 (rows lg) = diag sim (Z.of_nat N) ++ diag sim (- Z.of_nat N) /\
    forall i, (i < 2 * N)%nat ->
      exists v,
        get sim i (SimCLR_TT_Loss.partner N i) = Some v /\
        get lg i 0 = Some v.
Proof.
  intros HN _ Hi Hf Hx Hp Hsx Hsp.
  injection Hsx as Hnx Hdx. injection Hsp as Hnp Hdp.
  assert (Hc : ncols x = ncols x_pair) by congruence.
  assert (Hr : (nrows x + nrows x_pair = 2 * N)%nat) by lia.
  destruct (@logits_value cfg rnd f N T self x x_pair HN Hi Hf Hx Hp Hc Hr)
    as (sim & negs & Es & Hw & Hs & En & Hwn & Hsn & _ & El).
  destruct (@init_inv f N T self Hi) as (_ & HT & Hsf & _).
  destruct (@wf_subsample cfg rnd negs Hwn) as ([Hl _] & E & _).
  assert (Hnr : nrows negs = (2 * N)%nat) by (now injection Hsn).
  assert (Hpl : length (positives N sim) = (2 * N)%nat)
    by (rewrite (@length_positives N (2 * N) sim Hw Hs); lia).
  exists sim. eexists. split; [|split; [exact Es|split; [exact El|split]]].
  - rewrite (@similarity_value self x x_pair Hc), HT, Hsf in Es.
    now injection Es.
  - cbn [rows]. rewrite column0_zip_cons by lia. reflexivity.
  - intros i Hlt.
    destruct (@get_lt_Some _ sim i (SimCLR_TT_Loss.partner N i) Hw)
      as [v Hg].
    { injection Hs as -> _. exact Hlt. }
    { injection Hs as _ ->. apply partner_lt, Hlt. }
    exists v. split; [exact Hg|].
    apply get_first_column; [|lia].
    now rewrite (@positives_entry N sim i Hw Hs Hlt).
Qed.

Lemma simclr_positive_logits_witness :
  exists sim lg,
    sim = map2d (fun v => (v / 1)%R)
            (sim_dot (cat_rows x21 x21) (cat_rows x21 x21)) /\
    SimCLR_TT_Loss.similarity self2 x21 x21 = inr sim /\
    SimCLR_TT_Loss.logits cfg22 (fun _ _ => 0%R) self2 x21 x21 = inr lg /\
    column 0 (rows lg) = diag sim (Z.of_nat 2) ++ diag sim (- Z.of_nat 2) /\
    forall i, (i < 2 * 2)%nat ->
      exists v,
        get sim i (SimCLR_TT_Loss.partner 2 i) = Some v /\
        get lg i 0 = Some v.
Proof.
  apply (@simclr_positive_logits cfg22 (fun _ _ => 0%R) sim_dot 2 1 1
           self2 x21 x21);
    [lia | lra | exact init_self2 | exact pairwise_sim_dot | exact wf_x21
     | exact wf_x21 | reflexivity | reflexivity].
Defined.

(** C8, as the code has it. [SimCLR_TT_Loss.forward] has no check of
    its own on the shapes.  With a batch size [N >= 1] and a similarity
    function that gives one entry to every pair of rows, it raises
    [RuntimeError] when the two batches have different numbers of columns
    or when their rows are not [2 N] in all, and it returns a loss in
    every other case. *)
Theorem simclr_forward_shape_check (cfg : Config.t) (rnd : nat -> nat -> R)
  (f : Tensor.t R -> Tensor.t R -> Tensor.t R) (N : nat) (T : R)
  (self : SimCLR_TT_Loss.t) (x x_pair : Tensor.t R) :
  (1 <= N)%nat -> SimCLR_TT_Loss.init f N T = inr self -> pairwise f ->
  wf x -> wf x_pair ->
  (ncols x <> ncols x_pair \/ (nrows x + nrows x_pair <> 2 * N)%nat ->
   SimCLR_TT_Loss.forward cfg rnd self x x_pair = inl RuntimeError) /\
  (ncols x = ncols x_pair -> (nrows x + nrows x_pair = 2 * N)%nat ->
   exists v, SimCLR_TT_Loss.forward cfg rnd self x x_pair = inr v).
Proof.
  intros HN Hi Hf Hx Hp.
  destruct (@init_inv f N T self Hi) as (Hb & _ & Hsf & _).
  split.
  - intros H. unfold SimCLR_TT_Loss.forward, SimCLR_TT_Loss.logits.
    destruct (Nat.eq_dec (ncols x) (ncols x_pair)) as [Hc|Hc].
    2:{ now rewrite similarity_error. }
    destruct H as [H|H]; [contradiction|].
    rewrite <- Hsf in Hf.
    destruct (@wf_similarity self x x_pair Hf Hx Hp Hc)
      as (sim & Es & Hw & Hs).
    rewrite Es. cbn [bind].
    rewrite (@positive_samples_error self _ sim Hw Hs); [reflexivity|].
    now rewrite Hb.
  - intros Hc Hr.
    destruct (@forward_value cfg rnd f N T self x x_pair HN Hi Hf Hx Hp Hc Hr)
      as (sim & negs & _ & _ & _ & _ & _ & _ & _ & E).
    eexists. exact E.
Qed.

Lemma simclr_forward_shape_check_witness :
  (ncols x11 <> ncols x21 \/ (nrows x11 + nrows x21 <> 2 * 2)%nat ->
   SimCLR_TT_Loss.forward cfg22 (fun _ _ => 0%R) self2 x11 x21
   = inl RuntimeError) /\
  (ncols x11 = ncols x21 -> (nrows x11 + nrows x21 = 2 * 2)%nat ->
   exists v, SimCLR_TT_Loss.forward cfg22 (fun _ _ => 0%R) self2 x11 x21
             = inr v).
Proof.
  apply (@simclr_forward_shape_check cfg22 (fun _ _ => 0%R) sim_dot 2 1
           self2 x11 x21);
    [lia | exact init_self2 | exact pairwise_sim_dot | exact wf_x11
     | exact wf_x21].
Defined.

(** C8, as stated, fails: with a batch size of 2, a batch [x] of one row
    and a batch [x_pair] of three rows have different shapes, and the
    batch dimension of [x] is not the batch size, yet
    [SimCLR_TT_Loss.forward] returns a loss. *)
Lemma simclr_unequal_split_counterexample :
  SimCLR_TT_Loss.init sim_dot 2 1 = inr self2 /\
  shape x11 <> shape x31 /\
  nrows x11 <> SimCLR_TT_Loss.batch_size self2 /\
  exists v, SimCLR_TT_Loss.forward cfg22 (fun _ _ => 0%R) self2 x11 x31
            = inr v.
Proof.
  split; [exact init_self2|]. split; [discriminate|].
  split; [cbn; lia|].
  destruct (@forward_value cfg22 (fun _ _ => 0%R) sim_dot 2 1 self2 x11 x31)
    as (sim & negs & _ & _ & _ & _ & _ & _ & _ & E);
    [lia | exact init_self2 | exact pairwise_sim_dot | exact wf_x11
     | exact wf_x31 | reflexivity | reflexivity |].
  eexists. exact E.
Qed.

(** C9. With a batch size [N >= 1] and a cap [config.N_negative] above
    the [2 N - 2] negatives of a row, the cut to the cap keeps the
    [2 N - 2] columns, every row of the negatives is a permutation of
    itself, no exception is raised, and the loss is the loss without a
    cap. *)
Theorem simclr_cap_above_negatives (cfg : Config.t) (c : nat)
  (rnd : nat -> nat -> R) (f : Tensor.t R -> Tensor.t R -> Tensor.t R)
  (N : nat) (T : R) (self : SimCLR_TT_Loss.t) (x x_pair : Tensor.t R) :
  (1 <= N)%nat -> T <> 0%R ->
  SimCLR_TT_Loss.init f N T = inr self -> pairwise f ->
  wf x -> wf x_pair -> ncols x = ncols x_pair ->
  (nrows x + nrows x_pair = 2 * N)%nat ->
  Config.N_negative cfg = Some c -> (2 * N - 2 < c)%nat ->
  exists sim negs v,
    SimCLR_TT_Loss.similarity self x x_pair = inr sim /\
    SimCLR_TT_Loss.all_negative_samples self sim = inr negs /\
    shape negs = (2 * N, 2 * N - 2)%nat /\
    shape (SimCLR_TT_Loss.subsample cfg rnd negs) = (2 * N, 2 * N - 2)%nat /\
    Forall2 (@Permutation R)
      (rows (SimCLR_TT_Loss.subsample cfg rnd negs)) (rows negs) /\
    SimCLR_TT_Loss.forward cfg rnd self x x_pair = inr v /\
    SimCLR_TT_Loss.forward (uncapped cfg) rnd self x x_pair = inr v.
Proof.
  intros HN _ Hi Hf Hx Hp Hc Hr Hcap Hlt.
  destruct (@forward_value cfg rnd f N T self x x_pair HN Hi Hf Hx Hp Hc Hr)
    as (sim & negs & Es & Hw & Hs & En & Hwn & Hsn & _ & E).
  destruct (@forward_value (uncapped cfg) rnd f N T self x x_pair
              HN Hi Hf Hx Hp Hc Hr)
    as (sim' & negs' & Es' & _ & _ & En' & _ & _ & _ & E').
  rewrite Es in Es'. injection Es' as <-.
  rewrite En in En'. injection En' as <-.
  assert (Hnc : ncols negs = (2 * N - 2)%nat) by (now injection Hsn).
  assert (Hnr : nrows negs = (2 * N)%nat) by (now injection Hsn).
  assert (P : Forall2 (@Permutation R)
                (rows (SimCLR_TT_Loss.subsample cfg rnd negs)) (rows negs))
    by (apply (@subsample_noop cfg rnd negs c Hwn Hcap); lia).
  destruct (@wf_subsample cfg rnd negs Hwn) as (_ & Er & Ec).
  rewrite Hcap in Ec.
  exists sim, negs. eexists.
  split; [exact Es|]. split; [exact En|]. split; [exact Hsn|].
  split; [|split; [exact P|split; [exact E|]]].
  - unfold shape. rewrite Er, Ec, Hnr, Hnc.
    destruct c as [|c]; [lia|]. now rewrite Nat.min_r by lia.
  - rewrite E'. do 3 f_equal.
    change (SimCLR_TT_Loss.subsample (uncapped cfg) rnd negs) with negs.
    symmetry. now apply zip_row_loss_perm.
Qed.

Lemma simclr_cap_above_negatives_witness :
  exists sim negs v,
    SimCLR_TT_Loss.similarity self2 x21 x21 = inr sim /\
    SimCLR_TT_Loss.all_negative_samples self2 sim = inr negs /\
    shape negs = (2 * 2, 2 * 2 - 2)%nat /\
    shape (SimCLR_TT_Loss.subsample cfg_cap5 (fun i j => INR (i + j)) negs)
      = (2 * 2, 2 * 2 - 2)%nat /\
    Forall2 (@Permutation R)
      (rows (SimCLR_TT_Loss.subsample cfg_cap5 (fun i j => INR (i + j)) negs))
      (rows negs) /\
    SimCLR_TT_Loss.forward cfg_cap5 (fun i j => INR (i + j)) self2 x21 x21
      = inr v /\
    SimCLR_TT_Loss.forward (uncapped cfg_cap5) (fun i j => INR (i + j))
      self2 x21 x21 = inr v.
Proof.
  apply (@simclr_cap_above_negatives cfg_cap5 5 (fun i j => INR (i + j))
           sim_dot 2 1 self2 x21 x21);
    [lia | lra | exact init_self2 | exact pairwise_sim_dot | exact wf_x21
     | exact wf_x21 | reflexivity | reflexivity | reflexivity
     | cbn; lia].
Defined.
